(** * cloudwatch-exporter: the collector (collector.go)

    A shallow embedding of [collector.go].  Go strings are byte strings and
    are modelled by [string] (one [ascii] per byte).  A [*string] field of
    the AWS SDK types is an [option string], [None] being the nil pointer.
    Code that may panic runs in a state monad whose outcome is either
    [Done] or [Panicked]; both carry the world as it is at that point, so
    that what was already sent on the channel stays observable. *)

From Stdlib Require Import ZArith Lia List String Ascii PrimFloat.
From Stdlib Require Import DecimalString DecimalNat Zbitwise.
From stdpp Require Import base option list strings gmap.

Local Open Scope Z_scope.

(** ** Bytes and runes *)

Definition rune := Z.

Definition byte_val (c : ascii) : Z := Z.of_N (N_of_ascii c).

Definition within (lo hi x : Z) : bool := (lo <=? x) && (x <=? hi).

(** ** unicode/utf8 *)

Module utf8.

Definition RuneError : rune := 65533.
Definition RuneSelf : Z := 128.

(** Continuation bytes lie in [locb, hicb]. *)
Definition locb : Z := 128.
Definition hicb : Z := 191.

(** The [first] table of the package, read as: the size of the sequence a
    leading byte announces and the range accepted for its second byte.
    [None] stands for the entries [xx] (invalid leading byte). *)
Definition first (s0 : Z) : option (nat * (Z * Z)) :=
  if within 194 223 s0 then Some (2%nat, (locb, hicb))
  else if s0 =? 224 then Some (3%nat, (160, hicb))
  else if within 225 236 s0 then Some (3%nat, (locb, hicb))
  else if s0 =? 237 then Some (3%nat, (locb, 159))
  else if within 238 239 s0 then Some (3%nat, (locb, hicb))
  else if s0 =? 240 then Some (4%nat, (144, hicb))
  else if within 241 243 s0 then Some (4%nat, (locb, hicb))
  else if s0 =? 244 then Some (4%nat, (locb, 143))
  else None.

(** [DecodeRuneInString s]: the first rune of [s] and its width in bytes;
    [(RuneError, 0)] on the empty string and [(RuneError, 1)] on an
    encoding error. *)
Definition DecodeRuneInString (s : string) : rune * nat :=
  match s with
  | EmptyString => (RuneError, 0%nat)
  | String c0 t0 =>
    let s0 := byte_val c0 in
    if s0 <? RuneSelf then (s0, 1%nat)
    else
      match first s0 with
      | None => (RuneError, 1%nat)
      | Some (sz, (lo, hi)) =>
        if (String.length s <? sz)%nat then (RuneError, 1%nat) else
        match t0 with
        | EmptyString => (RuneError, 1%nat)
        | String c1 t1 =>
          let s1 := byte_val c1 in
          if negb (within lo hi s1) then (RuneError, 1%nat)
          else if (sz <=? 2)%nat then
            (Z.lor (Z.shiftl (Z.land s0 31) 6) (Z.land s1 63), 2%nat)
          else
            match t1 with
            | EmptyString => (RuneError, 1%nat)
            | String c2 t2 =>
              let s2 := byte_val c2 in
              if negb (within locb hicb s2) then (RuneError, 1%nat)
              else if (sz <=? 3)%nat then
                (Z.lor (Z.lor (Z.shiftl (Z.land s0 15) 12)
                              (Z.shiftl (Z.land s1 63) 6))
                       (Z.land s2 63), 3%nat)
              else
                match t2 with
                | EmptyString => (RuneError, 1%nat)
                | String c3 _ =>
                  let s3 := byte_val c3 in
                  if negb (within locb hicb s3) then (RuneError, 1%nat)
                  else
                    (Z.lor (Z.lor (Z.lor (Z.shiftl (Z.land s0 7) 18)
                                         (Z.shiftl (Z.land s1 63) 12))
                                  (Z.shiftl (Z.land s2 63) 6))
                           (Z.land s3 63), 4%nat)
                end
            end
        end
      end
  end.

(** [ValidString s]: [s] consists of valid encodings only.  [skip] counts
    the bytes of the current rune still to be passed over. *)
Fixpoint valid_from (skip : nat) (s : string) : bool :=
  match s with
  | EmptyString => true
  | String c t =>
    match skip with
    | S k => valid_from k t
    | O =>
      if byte_val c <? RuneSelf then valid_from 0 t
      else
        match DecodeRuneInString s with
        | (_, 1%nat) => false
        | (_, size) => valid_from (size - 1) t
        end
    end
  end.

Definition ValidString (s : string) : bool := valid_from 0 s.

End utf8.

(** ** regexp, for an expression made of one character class *)

Module regexp.

(** [ReplaceAllString] for a regexp that matches exactly one rune, the
    runes of [class]: the input is read rune by rune as the matcher does
    (an invalid byte reads as [utf8.RuneError], width 1); a matching rune
    is replaced by [repl], any other is copied.  [skip] counts the bytes
    of the current rune still to be passed over, and [copy] tells whether
    they belong to a rune that is copied. *)
Fixpoint replace_from (class : rune -> bool) (repl : string)
         (skip : nat) (copy : bool) (src : string) : string :=
  match src with
  | EmptyString => EmptyString
  | String c t =>
    match skip with
    | S k =>
      if copy then String c (replace_from class repl k copy t)
      else replace_from class repl k copy t
    | O =>
      let '(r, size) := utf8.DecodeRuneInString src in
      if class r then (repl ++ replace_from class repl (size - 1) false t)%string
      else String c (replace_from class repl (size - 1) true t)
    end
  end.

Definition ReplaceAllString (class : rune -> bool) (src repl : string) : string :=
  replace_from class repl 0 true src.

End regexp.

(** ** strings, strconv *)

Module strings.

(** [Join elems sep]. *)
Fixpoint Join (elems : list string) (sep : string) : string :=
  match elems with
  | [] => EmptyString
  | [a] => a
  | a :: rest => (a ++ sep ++ Join rest sep)%string
  end.

End strings.

(** Go's [error] values, as far as this program meets them. *)
Inductive error : Type :=
| errorString (msg : string)
    (* errors.New(msg) *)
| errorf (format : string) (args : list string)
    (* fmt.Errorf(format, args...), left unformatted *)
| NumError (Func Num : string)
    (* *strconv.NumError: [Num] failed to convert (bad syntax or out of range) *)
| errInconsistentCardinality (want got : nat)
    (* prometheus: number of label values differs from the descriptor's *)
| errLabelValueNotUTF8 (v : string).
    (* prometheus: a label value is not valid UTF-8 *)

Module strconv.

(** [int] has 64 bits. *)
Definition maxInt : Z := 2 ^ 63 - 1.
Definition minInt : Z := - 2 ^ 63.

Definition digit (c : ascii) : option Z :=
  let b := byte_val c in
  if within 48 57 b then Some (b - 48) else None.

(** The digit loop: [n = n*10 + int(ch)], failing on a byte that is not
    a decimal digit. *)
Fixpoint digits (n : Z) (s : string) : option Z :=
  match s with
  | EmptyString => Some n
  | String ch t =>
    match digit ch with
    | Some d => digits (n * 10 + d) t
    | None => None
    end
  end.

(** [Atoi s]: an optional sign, then at least one decimal digit, the
    value within [int].  Everything else is a [*NumError]. *)
Definition Atoi (s : string) : error + Z :=
  let fail := inl (NumError "Atoi" s) in
  match s with
  | EmptyString => fail
  | String c0 t =>
    let neg := Ascii.eqb c0 "-" in
    let body := if neg || Ascii.eqb c0 "+" then t else s in
    match body with
    | EmptyString => fail
    | _ =>
      match digits 0 body with
      | None => fail
      | Some n =>
        let i := if neg then - n else n in
        if within minInt maxInt i then inr i else fail
      end
    end
  end.

(** [Itoa], on the naturals. *)
Definition Itoa (n : nat) : string := NilZero.string_of_uint (Nat.to_uint n).

End strconv.

(** ** The AWS SDK's cloudwatch types *)

Definition float64 := float.

Module types.

Record Dimension : Type := { Name : option string; Value : option string }.

Record Metric : Type := {
  Dimensions : list Dimension;
  MetricName : option string;
  Namespace : option string
}.

Record MetricDataResult : Type := {
  Id : option string;
  Values : list float64
}.

(** The zero value, which [make] fills a fresh slice with. *)
Definition zeroMetric : Metric :=
  {| Dimensions := []; MetricName := None; Namespace := None |}.

End types.

(** ** prometheus/client_golang *)

Module prometheus.

(** A [*Desc].  A descriptor is never written after [NewDesc] returns, so
    the pointer is modelled by the descriptor's fields together with
    [addr], the address that tells one instance from another. *)
Record Desc : Type := {
  addr : nat;
  fqName : string;
  help : string;
  variableLabels : list string;
  err : option error
}.

(** The two implementations of the [Metric] interface this program
    builds: a sample, and a metric that only reports an error. *)
Inductive Metric : Type :=
| constMetric (desc : Desc) (val : float64) (labelValues : list string)
| invalidMetric (desc : Desc) (e : error).

(** [NewDesc] checks the names it is given and records a failed check in
    the descriptor's [err].  What is a valid name changed between
    versions of the library, so the check is a parameter. *)
Class Validation : Type := {
  checkDesc : string -> string -> list string -> option error
}.

(** [validateLabelValues]. *)
Definition validateLabelValues (vals : list string) (expectedNumberOfValues : nat)
  : option error :=
  if negb (length vals =? expectedNumberOfValues)%nat
  then Some (errInconsistentCardinality expectedNumberOfValues (length vals))
  else
    match List.find (fun v => negb (utf8.ValidString v)) vals with
    | Some v => Some (errLabelValueNotUTF8 v)
    | None => None
    end.

(** [NewConstMetric], for the value type [UntypedValue]. *)
Definition NewConstMetric (desc : Desc) (value : float64) (labelValues : list string)
  : error + Metric :=
  match err desc with
  | Some e => inl e
  | None =>
    match validateLabelValues labelValues (length (variableLabels desc)) with
    | Some e => inl e
    | None => inr (constMetric desc value labelValues)
    end
  end.

Definition NewInvalidMetric (desc : Desc) (e : error) : Metric :=
  invalidMetric desc e.

End prometheus.

(** ** stoewer/go-strcase *)

Module strcase.

Class Lib : Type := { SnakeCase : string -> string }.

End strcase.

(** ** The reporter (reporter.go)

    The collector calls two methods of the reporter and knows nothing else
    of it, so the reporter is a parameter: a state [R] and the two calls,
    each returning the reporter's next state and, as Go's [(value, err)]
    pair, either the error or the value. *)

Class Reporter (R : Type) : Type := {
  ListMetrics : R -> string -> string -> R * (error + list types.Metric);
  GetMetricsResults : R -> list types.Metric -> R * (error + list types.MetricDataResult)
}.

(** ** Panics *)

Inductive panic : Type :=
| NilDereference                        (* runtime error: nil pointer dereference *)
| SliceBounds (i : nat) (bound : nat)   (* runtime error: slice bounds out of range *)
| IndexOutOfRange (i : Z) (len : nat)   (* runtime error: index out of range *)
| PanicString (msg : string)            (* panic(fmt.Sprintf(...)) *)
| PanicError (e : error).               (* panic(err) *)

(** ** Slices of metrics

    A slice is a window of [len] elements on its backing array, whose
    length is the slice's capacity. *)

Record slice : Type := { array : list types.Metric; len : nat }.

Definition cap (s : slice) : nat := length (array s).

(** [make([]types.Metric, n, c)] *)
Definition make (n c : nat) : slice :=
  {| array := replicate c types.zeroMetric; len := n |}.

(** The elements a callee or a [range] sees. *)
Definition elems (s : slice) : list types.Metric := take (len s) (array s).

Definition batchSize : nat := 500.

Section collector.

Context {R : Type} {Rep : Reporter R} {Val : prometheus.Validation} {Str : strcase.Lib}.

(** What a collector's methods read and write: the reporter, the
    allocator of descriptors, the contents of the collector's [descMap]
    (the struct holds a reference to the map, so the copy a value
    receiver works on shares it), the metrics sent on the channel [ch] so
    far, and, as a record of the run, the batches that were handed to
    [GetMetricsResults].  A send on [ch] is taken to be received. *)
Record World : Type := {
  rep : R;
  nextAddr : nat;
  descMap : gmap string prometheus.Desc;
  sent : list prometheus.Metric;
  calls : list (list types.Metric)
}.

Inductive outcome (A : Type) : Type :=
| Done (a : A) (w : World)
| Panicked (p : panic) (w : World).
Global Arguments Done {A} a w.
Global Arguments Panicked {A} p w.

Definition M (A : Type) : Type := World -> outcome A.

Global Instance M_ret : MRet M := fun A a w => Done a w.
Global Instance M_bind : MBind M := fun A B f m w =>
  match m w with
  | Done a w' => f a w'
  | Panicked p w' => Panicked p w'
  end.

(** The world an outcome leaves behind. *)
Definition final {A} (o : outcome A) : World :=
  match o with Done _ w => w | Panicked _ w => w end.

Definition raise {A} (p : panic) : M A := fun w => Panicked p w.

(** [*p] *)
Definition deref {A} (p : option A) : M A :=
  match p with Some a => mret a | None => raise NilDereference end.

(** [ch <- m] *)
Definition send (m : prometheus.Metric) : M unit := fun w =>
  Done tt {| rep := rep w; nextAddr := nextAddr w; descMap := descMap w;
             sent := sent w ++ [m]; calls := calls w |}.

(** [c.descMap[key]], with the comma-ok result as an option *)
Definition descMap_get (key : string) : M (option prometheus.Desc) := fun w =>
  Done (descMap w !! key) w.

(** [c.descMap[key] = desc] *)
Definition descMap_set (key : string) (desc : prometheus.Desc) : M unit := fun w =>
  Done tt {| rep := rep w; nextAddr := nextAddr w;
             descMap := <[key := desc]> (descMap w);
             sent := sent w; calls := calls w |}.

(** [prometheus.NewDesc(fqName, help, variableLabels, nil)] *)
Definition NewDesc (fqName help : string) (variableLabels : list string)
  : M prometheus.Desc := fun w =>
  Done {| prometheus.addr := nextAddr w;
          prometheus.fqName := fqName;
          prometheus.help := help;
          prometheus.variableLabels := variableLabels;
          prometheus.err := prometheus.checkDesc fqName help variableLabels |}
       {| rep := rep w; nextAddr := S (nextAddr w); descMap := descMap w;
          sent := sent w; calls := calls w |}.

(** [prometheus.MustNewConstMetric(desc, prometheus.UntypedValue, value, lvs...)] *)
Definition MustNewConstMetric (desc : prometheus.Desc) (value : float64)
           (labelValues : list string) : M prometheus.Metric :=
  match prometheus.NewConstMetric desc value labelValues with
  | inl e => raise (PanicError e)
  | inr m => mret m
  end.

(** [c.reporter.ListMetrics(namespace, metricName)] *)
Definition reporter_ListMetrics (namespace metricName : string)
  : M (error + list types.Metric) := fun w =>
  let '(r, res) := ListMetrics (rep w) namespace metricName in
  Done res {| rep := r; nextAddr := nextAddr w; descMap := descMap w;
              sent := sent w; calls := calls w |}.

(** [c.reporter.GetMetricsResults(metrics)] *)
Definition reporter_GetMetricsResults (metrics : list types.Metric)
  : M (error + list types.MetricDataResult) := fun w =>
  let '(r, res) := GetMetricsResults (rep w) metrics in
  Done res {| rep := r; nextAddr := nextAddr w; descMap := descMap w;
              sent := sent w; calls := calls w ++ [metrics] |}.

(** [for _, x := range l { body }], without and with loop-carried
    variables. *)
Fixpoint range {A} (l : list A) (body : A -> M unit) : M unit :=
  match l with
  | [] => mret tt
  | x :: l' => body x ;; range l' body
  end.

Fixpoint range_with {A S} (l : list A) (body : A -> S -> M S) (s : S) : M S :=
  match l with
  | [] => mret s
  | x :: l' => s' ← body x s; range_with l' body s'
  end.

(** [s[i] = x] *)
Definition slice_set (s : slice) (i : nat) (x : types.Metric) : M slice :=
  if (i <? len s)%nat
  then mret {| array := <[i := x]> (array s); len := len s |}
  else raise (IndexOutOfRange (Z.of_nat i) (len s)).

(** [s[:j]] *)
Definition slice_to (s : slice) (j : nat) : M slice :=
  if (j <=? cap s)%nat
  then mret {| array := array s; len := j |}
  else raise (SliceBounds j (cap s)).

(** [metrics[idx]] *)
Definition index (metrics : list types.Metric) (idx : Z) : M types.Metric :=
  if (0 <=? idx) && (idx <? Z.of_nat (length metrics))
  then match metrics !! Z.to_nat idx with
       | Some m => mret m
       | None => raise (IndexOutOfRange idx (length metrics))
       end
  else raise (IndexOutOfRange idx (length metrics)).

(** [s[1:]] on a string *)
Definition string_from_1 (s : string) : M string :=
  match s with
  | EmptyString => raise (SliceBounds 1 0)
  | String _ t => mret t
  end.

Record collector : Type := {
  namespace : string;
  metricName : string;
  errDesc : prometheus.Desc
}.

(** The set [prometheusMetricNameRegexp] matches: one rune outside
    [a-zA-Z0-9_:]. *)
Definition prometheusMetricNameRegexp (r : rune) : bool :=
  negb (within 97 122 r || within 65 90 r || within 48 57 r
        || (r =? 95) || (r =? 58)).

(** The two loops over [m.Dimensions] dereference each name, then each
    value, in order. *)
Fixpoint labels (ds : list types.Dimension) : M (list string * list string) :=
  match ds with
  | [] => mret ([], [])
  | d :: ds' =>
    n ← deref (types.Name d);
    v ← deref (types.Value d);
    '(lns, lvs) ← labels ds';
    mret (n :: lns, v :: lvs)
  end.

Definition collectMetric (c : collector) (m : types.Metric) (value : float64) : M unit :=
  ns ← deref (types.Namespace m);
  let namespace := strcase.SnakeCase
                     (regexp.ReplaceAllString prometheusMetricNameRegexp ns "_") in
  mn ← deref (types.MetricName m);
  let name := strcase.SnakeCase
                (regexp.ReplaceAllString prometheusMetricNameRegexp mn "_") in
  '(lns, lvs) ← labels (types.Dimensions m);
  let key := strings.Join lns " " in
  found ← descMap_get key;
  desc ← match found with
         | Some desc => mret desc
         | None =>
           desc ← NewDesc (namespace ++ "_" ++ name)
                          ("Cloudwatch Metric " ++ ns ++ "/" ++ mn) lns;
           descMap_set key desc;;
           mret desc
         end;
  metric ← MustNewConstMetric desc value lvs;
  send metric.

Fixpoint sprintDims_from (out : string) (ds : list types.Dimension) : M string :=
  match ds with
  | [] => mret out
  | d :: ds' =>
    n ← deref (types.Name d);
    v ← deref (types.Value d);
    sprintDims_from (out ++ n ++ "=" ++ v ++ ",") ds'
  end.

Definition sprintDims (ds : list types.Dimension) : M string :=
  sprintDims_from "" ds.

(** The body of the loop over [results] in [collectBatch].  The calls to
    the logger are left out, but not the evaluation of their arguments. *)
Definition collectBatch_body (c : collector) (metrics : list types.Metric)
           (result : types.MetricDataResult) : M unit :=
  id ← deref (types.Id result);
  suffix ← string_from_1 id;
  idx ← match strconv.Atoi suffix with
        | inl e => raise (PanicError e)
        | inr idx => mret idx
        end;
  m ← index metrics idx;
  sprintDims (types.Dimensions m);;
  match types.Values result with
  | [] => mret tt
  | v :: _ => collectMetric c m v
  end.

Definition collectBatch (c : collector) (metrics : list types.Metric) : M unit :=
  if (length metrics =? 0)%nat then mret tt
  else
    res ← reporter_GetMetricsResults metrics;
    match res with
    | inl e => send (prometheus.NewInvalidMetric (errDesc c) e)
    | inr results =>
      let nr := length results in
      let nm := length metrics in
      if negb (nr =? nm)%nat
      then raise (PanicString ("not same length: " ++ strconv.Itoa nr
                                 ++ " != " ++ strconv.Itoa nm))
      else range results (collectBatch_body c metrics)
    end.

(** The body of the loop over [metrics] in [Collect]; [batch] and [i] are
    the variables it carries. *)
Definition Collect_body (c : collector) (metric : types.Metric)
           (st : slice * nat) : M (slice * nat) :=
  let '(batch, i) := st in
  batch ← slice_set batch i metric;
  let i := S i in
  if (i <? batchSize)%nat then mret (batch, i)
  else
    let i := 0%nat in
    collectBatch c (elems batch);;
    mret (batch, i).

Definition Collect (c : collector) : M unit :=
  res ← reporter_ListMetrics (namespace c) (metricName c);
  match res with
  | inl e => send (prometheus.NewInvalidMetric (errDesc c) e)
  | inr metrics =>
    let length' := length metrics in
    let length' := if (batchSize <? length')%nat then batchSize else length' in
    let batch := make length' batchSize in
    '(batch, i) ← range_with metrics (Collect_body c) (batch, 0%nat);
    last ← slice_to batch i;
    collectBatch c (elems last)
  end.

(** [newCollector]: the collector and the world it starts in, with an
    empty [descMap]; [errDesc] is the first descriptor allocated. *)
Definition newCollector (reporter : R) (namespace metricName : string)
  : collector * World :=
  ({| namespace := namespace; metricName := metricName;
      errDesc := {| prometheus.addr := 0;
                    prometheus.fqName := "cloudwatch_error";
                    prometheus.help := "Error collecting metrics";
                    prometheus.variableLabels := [];
                    prometheus.err :=
                      prometheus.checkDesc "cloudwatch_error"
                                           "Error collecting metrics" [] |} |},
   {| rep := reporter; nextAddr := 1; descMap := ∅; sent := []; calls := [] |}).

(** [Describe].  Its channel carries descriptors, not metrics, and is no
    part of the world: the descriptor it sends is the result. *)
Definition Describe (c : collector) : M prometheus.Desc :=
  NewDesc "dummy" "dummy" [].

End collector.

(** ** Instances

    One instance of each parameter, to run the collector on concrete
    inputs. *)

(** go-strcase's [SnakeCase], that is [delimiterCase(s, '_', false)], on
    ASCII strings, where a rune is a byte.  (The collector only applies it
    to the output of the replacement above, which is ASCII.) *)
Module strcase_ascii.

Definition isLower (ch : Z) : bool := within 97 122 ch.
Definition isUpper (ch : Z) : bool := within 65 90 ch.
Definition toLower (ch : Z) : Z := if isUpper ch then ch + 32 else ch.
Definition isSpace (ch : Z) : bool :=
  (ch =? 32) || (ch =? 9) || (ch =? 10) || (ch =? 13).
Definition isDelimiter (ch : Z) : bool :=
  (ch =? 45) || (ch =? 95) || isSpace ch.

(** [strings.TrimSpace], on ASCII. *)
Definition isTrimmed (ch : Z) : bool := within 9 13 ch || (ch =? 32).
Fixpoint trimLeft (s : list Z) : list Z :=
  match s with
  | ch :: s' => if isTrimmed ch then trimLeft s' else s
  | [] => []
  end.
Definition TrimSpace (s : list Z) : list Z :=
  rev (trimLeft (rev (trimLeft s))).

(** The loop [for _, next := range s], carrying [buffer], [prev] and
    [curr]. *)
Fixpoint loop (delimiter : Z) (s : list Z) (buffer : list Z) (prev curr : Z)
  : list Z * Z * Z :=
  match s with
  | [] => (buffer, prev, curr)
  | next :: s' =>
    let buffer :=
      if isDelimiter curr then
        if negb (isDelimiter prev) then buffer ++ [delimiter] else buffer
      else if isUpper curr then
        let buffer :=
          if isLower prev || (isUpper prev && isLower next)
          then buffer ++ [delimiter] else buffer in
        buffer ++ [toLower curr]
      else if negb (curr =? 0) then buffer ++ [toLower curr]
      else buffer in
    loop delimiter s' buffer curr next
  end.

Definition delimiterCase (s : list Z) (delimiter : Z) : list Z :=
  let s := TrimSpace s in
  let '(buffer, prev, curr) := loop delimiter s [] 0 0 in
  if (0 <? length s)%nat then
    let buffer :=
      if isUpper curr && isLower prev && negb (prev =? 0)
      then buffer ++ [delimiter] else buffer in
    buffer ++ [toLower curr]
  else buffer.

Definition bytes (s : string) : list Z := map byte_val (list_ascii_of_string s).
Definition of_bytes (l : list Z) : string :=
  string_of_list_ascii (map (fun b => ascii_of_N (Z.to_N b)) l).

Definition SnakeCase (s : string) : string := of_bytes (delimiterCase (bytes s) 95).

Definition lib : strcase.Lib := {| strcase.SnakeCase := SnakeCase |}.

End strcase_ascii.

(** The name checks of [NewDesc] under the library's original validation
    scheme: a metric name matches [[a-zA-Z_:][a-zA-Z0-9_:]*], a label name
    matches [[a-zA-Z_][a-zA-Z0-9_]*] and does not start with two
    underscores, and no label name occurs twice. *)
Module legacy.

Definition isLetter (b : Z) : bool := within 97 122 b || within 65 90 b || (b =? 95).
Definition isDigit (b : Z) : bool := within 48 57 b.

Fixpoint name_tail (colon : bool) (s : string) : bool :=
  match s with
  | EmptyString => true
  | String c t =>
    (isLetter (byte_val c) || isDigit (byte_val c) || (colon && (byte_val c =? 58)))
    && name_tail colon t
  end.

Definition name_ok (colon : bool) (s : string) : bool :=
  match s with
  | EmptyString => false
  | String c t =>
    (isLetter (byte_val c) || (colon && (byte_val c =? 58))) && name_tail colon t
  end.

Definition IsValidMetricName (s : string) : bool := name_ok true s.

Definition checkLabelName (l : string) : bool :=
  name_ok false l && negb (String.prefix "__" l).

Definition checkDesc (fqName help : string) (variableLabels : list string)
  : option error :=
  if negb (IsValidMetricName fqName)
  then Some (errorf "%q is not a valid metric name" [fqName])
  else
    match List.find (fun l => negb (checkLabelName l)) variableLabels with
    | Some l => Some (errorf "%q is not a valid label name for metric %q" [l; fqName])
    | None =>
      if bool_decide (NoDup variableLabels) then None
      else Some (errorString "duplicate label names")
    end.

Definition validation : prometheus.Validation :=
  {| prometheus.checkDesc := checkDesc |}.

End legacy.


(** * Notions used in the statements *)

Section notions.

Context {R : Type} {Rep : Reporter R} {Val : prometheus.Validation} {Str : strcase.Lib}.

(** The names and the values of a list of dimensions, in order, when no
    pointer among them is nil. *)
Fixpoint dimensions (ds : list types.Dimension) : option (list string * list string) :=
  match ds with
  | [] => Some ([], [])
  | d :: ds' =>
    match types.Name d, types.Value d, dimensions ds' with
    | Some n, Some v, Some (lns, lvs) => Some (n :: lns, v :: lvs)
    | _, _, _ => None
    end
  end.

(** A metric none of whose pointers is nil, with what they point to. *)
Definition reads (m : types.Metric) (ns mn : string) (lns lvs : list string) : Prop :=
  types.Namespace m = Some ns /\ types.MetricName m = Some mn
  /\ dimensions (types.Dimensions m) = Some (lns, lvs).

(** The public name and the help text [collectMetric] gives a descriptor it
    creates for namespace [ns] and metric name [mn]. *)
Definition normalize (s : string) : string :=
  strcase.SnakeCase (regexp.ReplaceAllString prometheusMetricNameRegexp s "_").

Definition descName (ns mn : string) : string := normalize ns ++ "_" ++ normalize mn.

Definition descHelp (ns mn : string) : string := "Cloudwatch Metric " ++ ns ++ "/" ++ mn.

(** The descriptor [NewDesc] allocates at address [a] for such a metric. *)
Definition created (a : nat) (ns mn : string) (lns : list string) : prometheus.Desc :=
  {| prometheus.addr := a;
     prometheus.fqName := descName ns mn;
     prometheus.help := descHelp ns mn;
     prometheus.variableLabels := lns;
     prometheus.err := prometheus.checkDesc (descName ns mn) (descHelp ns mn) lns |}.

(** The cache key of a sequence of dimension names. *)
Definition descKey (lns : list string) : string := strings.Join lns " ".

(** Changes of the world. *)
Definition emit (w : @World R) (s : prometheus.Metric) : World :=
  {| rep := rep w; nextAddr := nextAddr w; descMap := descMap w;
     sent := sent w ++ [s]; calls := calls w |}.

Definition cache (w : @World R) (key : string) (d : prometheus.Desc) : World :=
  {| rep := rep w; nextAddr := S (nextAddr w); descMap := <[key := d]> (descMap w);
     sent := sent w; calls := calls w |}.

Definition listed (w : @World R) (r : R) : World :=
  {| rep := r; nextAddr := nextAddr w; descMap := descMap w;
     sent := sent w; calls := calls w |}.

Definition fetched (w : @World R) (r : R) (batch : list types.Metric) : World :=
  {| rep := r; nextAddr := nextAddr w; descMap := descMap w;
     sent := sent w; calls := calls w ++ [batch] |}.

(** The descriptor [collectMetric] uses in world [w] for a metric with
    these fields, the cached one or else a new one, and the world once it
    has it. *)
Definition descriptor (w : @World R) (ns mn : string) (lns : list string)
  : prometheus.Desc :=
  match descMap w !! descKey lns with
  | Some d => d
  | None => created (nextAddr w) ns mn lns
  end.

Definition looked_up (w : @World R) (ns mn : string) (lns : list string) : World :=
  match descMap w !! descKey lns with
  | Some _ => w
  | None => cache w (descKey lns) (created (nextAddr w) ns mn lns)
  end.

(** [NewConstMetric] accepts these label values under this descriptor. *)
Definition accepts (d : prometheus.Desc) (lvs : list string) : bool :=
  match prometheus.err d with Some _ => false | None => true end
  && (length lvs =? length (prometheus.variableLabels d))%nat
  && forallb utf8.ValidString lvs.

(** The batch position a result's id leads to: the bytes after the first
    one, read by [Atoi], when that is an index into the batch. *)
Definition position (batch : list types.Metric) (result : types.MetricDataResult)
  : option nat :=
  match types.Id result with
  | Some (String _ suffix) =>
    match strconv.Atoi suffix with
    | inr idx =>
      if (0 <=? idx) && (idx <? Z.of_nat (length batch)) then Some (Z.to_nat idx) else None
    | inl _ => None
    end
  | _ => None
  end.

(** The id the reporter is to give the result for position [i]. *)
Definition queryId (i : nat) : string := "n" ++ strconv.Itoa i.

(** Consecutive batches of [n] elements, the last one shorter when the
    length of [l] is not a multiple of [n].  [fuel] bounds the number of
    batches. *)
Fixpoint batches_upto {A} (fuel n : nat) (l : list A) : list (list A) :=
  match fuel with
  | O => []
  | S fuel' =>
    match l with
    | [] => []
    | _ => take n l :: batches_upto fuel' n (drop n l)
    end
  end.

Definition batches {A} (n : nat) (l : list A) : list (list A) :=
  batches_upto (length l) n l.

(** What [Collect] does once its loop has ended in state [st]. *)
Definition Collect_end (c : collector) (st : slice * nat) : M unit :=
  last ← slice_to st.1 st.2; collectBatch c (elems last).

(** A dimension name without a space, and one that is not empty either. *)
Fixpoint spaces (s : string) : nat :=
  match s with
  | EmptyString => 0
  | String ch t => (if Ascii.eqb ch " " then 1 else 0) + spaces t
  end.

Definition spaceless (s : string) : bool := (spaces s =? 0)%nat.

Definition plain_name (s : string) : bool :=
  negb (String.eqb s "") && spaceless s.

(** A metric [collectMetric] can send a sample for, whatever is cached: no
    pointer is nil, its dimension names are plain, the descriptor made for
    it passes the checks of [NewDesc], and its label values are valid
    UTF-8. *)
Definition plain (m : types.Metric) : bool :=
  match types.Namespace m, types.MetricName m, dimensions (types.Dimensions m) with
  | Some ns, Some mn, Some (lns, lvs) =>
    forallb plain_name lns
    && match prometheus.checkDesc (descName ns mn) (descHelp ns mn) lns with
       | None => true
       | Some _ => false
       end
    && forallb utf8.ValidString lvs
  | _, _, _ => false
  end.

(** A cache is sound when each of its descriptors was built as
    [collectMetric] builds them and is filed under the key of its own label
    names, and plain when, moreover, these names are plain and the
    descriptor carries no error. *)
Definition sound_cache (w : @World R) : Prop :=
  forall key d, descMap w !! key = Some d ->
    exists a ns mn lns, d = created a ns mn lns /\ descKey lns = key.

Definition plain_cache (w : @World R) : Prop :=
  forall key d, descMap w !! key = Some d ->
    descKey (prometheus.variableLabels d) = key
    /\ prometheus.err d = None
    /\ forallb plain_name (prometheus.variableLabels d) = true.

(** Modelled from the spec: the contract of the reporter's
    [GetMetricsResults], one result for each position of the batch, with
    that position's id ["n<index>"], in any order. *)
Definition answers (batch : list types.Metric) (results : list types.MetricDataResult)
  : Prop :=
  Permutation (map types.Id results)
              (map (fun i => Some (queryId i)) (seq 0 (length batch))).

Definition isSample (s : prometheus.Metric) : bool :=
  match s with prometheus.constMetric _ _ _ => true | _ => false end.

(** From [w] to [w'], [n] samples and nothing else were sent, and the
    batches [bs] were fetched. *)
Definition produced (w w' : @World R) (n : nat) (bs : list (list types.Metric)) : Prop :=
  calls w' = calls w ++ bs
  /\ exists samples, sent w' = sent w ++ samples
       /\ length samples = n /\ forallb isSample samples = true.

(** A result that leads to a plain metric of the batch and has a value. *)
Definition serves (batch : list types.Metric) (r : types.MetricDataResult) : Prop :=
  exists i m, position batch r = Some i /\ batch !! i = Some m /\ plain m = true
              /\ types.Values r <> [].

(** The reporter answers every batch it may be given as the contract
    demands, with at least one value in each result. *)
Definition obliging : Prop :=
  forall (r : R) batch, batch <> [] -> (length batch <= batchSize)%nat ->
    exists r' results, GetMetricsResults r batch = (r', inr results)
      /\ answers batch results
      /\ Forall (fun r => types.Values r <> []) results.

(** [prog] keeps [Q] and sends samples only for metrics of [S], each
    related to its metric by [P]. *)
Definition keeps (Q : @World R -> Prop) (P : types.Metric -> prometheus.Metric -> Prop)
           (S : list types.Metric) {A} (prog : M A) : Prop :=
  forall w, Q w ->
    Q (final (prog w))
    /\ exists new, sent (final (prog w)) = sent w ++ new
         /\ Forall (fun s => isSample s = true -> exists m, m ∈ S /\ P m s) new.

(** [m] is among the metrics the reporter lists in world [w]. *)
Definition lists (c : collector) (w : @World R) (m : types.Metric) : Prop :=
  exists r' metrics,
    ListMetrics (rep w) (namespace c) (metricName c) = (r', inr metrics) /\ m ∈ metrics.

(** A sample for [m] whose label values are those of [m]'s dimensions, as
    many as the label names of its descriptor, which passed the checks of
    [NewDesc]; these names have the key of [m]'s dimension names and, if
    none of them has a space, are these names. *)
Definition aligned (m : types.Metric) (s : prometheus.Metric) : Prop :=
  match s with
  | prometheus.constMetric d _ lvs =>
    length lvs = length (prometheus.variableLabels d)
    /\ prometheus.checkDesc (prometheus.fqName d) (prometheus.help d)
                            (prometheus.variableLabels d) = None
    /\ exists ns mn lns,
         reads m ns mn lns lvs
         /\ descKey (prometheus.variableLabels d) = descKey lns
         /\ (forallb spaceless (prometheus.variableLabels d) = true ->
             prometheus.variableLabels d = lns)
  | prometheus.invalidMetric _ _ => True
  end.

(** A sample for [m] under the descriptor that [cached] holds for [m]'s
    key, if it holds one. *)
Definition reuses (cached : gmap string prometheus.Desc)
           (m : types.Metric) (s : prometheus.Metric) : Prop :=
  match s with
  | prometheus.constMetric d _ lvs =>
    exists ns mn lns,
      reads m ns mn lns lvs
      /\ forall d0, cached !! descKey lns = Some d0 -> d = d0
  | prometheus.invalidMetric _ _ => True
  end.

(** Every byte of [s] satisfies [P]. *)
Fixpoint every (P : ascii -> bool) (s : string) : bool :=
  match s with
  | EmptyString => true
  | String ch t => P ch && every P t
  end.

(** A byte of the class [[a-zA-Z0-9_:]]. *)
Definition inClass (ch : ascii) : bool := negb (prometheusMetricNameRegexp (byte_val ch)).

(** [s] with [f] applied to each byte. *)
Fixpoint bytewise (f : ascii -> ascii) (s : string) : string :=
  match s with
  | EmptyString => EmptyString
  | String ch t => String (f ch) (bytewise f t)
  end.

(** A panic raised by [panic(fmt.Sprintf(...))]. *)
Definition fromPanicString (p : panic) : bool :=
  match p with PanicString _ => true | _ => false end.

(** The strings of a list, one after the other. *)
Fixpoint appended (l : list string) : string :=
  match l with
  | [] => EmptyString
  | a :: l' => (a ++ appended l')%string
  end.

(** What [sprintDims] prints for these names and values. *)
Definition printed (lns lvs : list string) : string :=
  appended (zip_with (fun n v => n ++ "=" ++ v ++ ",")%string lns lvs).

(** The value and the label values of a sample. *)
Definition summary (s : prometheus.Metric) : option (float64 * list string) :=
  match s with
  | prometheus.constMetric _ v lvs => Some (v, lvs)
  | prometheus.invalidMetric _ _ => None
  end.

(** The value and the label values of the sample a result of a batch calls
    for: its first value, with the dimension values of the metric its id
    leads to. *)
Definition sample_of (batch : list types.Metric) (r : types.MetricDataResult)
  : option (float64 * list string) :=
  match types.Values r, position batch r with
  | v :: _, Some i =>
    match batch !! i with
    | Some m =>
      match dimensions (types.Dimensions m) with
      | Some (_, lvs) => Some (v, lvs)
      | None => None
      end
    | None => None
    end
  | _, _ => None
  end.

(** The invalid metrics among the metrics sent, and what [Collect] may
    send: any sample, and invalid metrics under [errDesc] only. *)
Definition invalids (l : list prometheus.Metric) : list prometheus.Metric :=
  List.filter (fun s => negb (isSample s)) l.

Definition reported (c : collector) (s : prometheus.Metric) : Prop :=
  match s with
  | prometheus.invalidMetric d _ => d = errDesc c
  | prometheus.constMetric _ _ _ => True
  end.

(** The allocator is ahead of every cached descriptor, address 0 is not
    cached, no two keys share an address, and as many descriptors are
    cached as were allocated after the first. *)
Definition tidy (w : @World R) : Prop :=
  (forall key d, descMap w !! key = Some d ->
     (0 < prometheus.addr d < nextAddr w)%nat)
  /\ (forall k1 k2 d1 d2, descMap w !! k1 = Some d1 -> descMap w !! k2 = Some d2 ->
        prometheus.addr d1 = prometheus.addr d2 -> k1 = k2)
  /\ nextAddr w = S (size (descMap w)).

(** The world after [n] invocations of [Collect], one after the other. *)
Fixpoint scrapes (c : collector) (n : nat) (w : @World R) : World :=
  match n with
  | O => w
  | S n' => scrapes c n' (final (Collect c w))
  end.

(** No byte of [s] is an underscore; a sample whose descriptor's name has
    one. *)
Definition underscoreless (s : string) : bool :=
  every (fun ch => negb (Ascii.eqb ch "_")) s.

Definition named_by_parts (m : types.Metric) (s : prometheus.Metric) : Prop :=
  match s with
  | prometheus.constMetric d _ _ => underscoreless (prometheus.fqName d) = false
  | prometheus.invalidMetric _ _ => True
  end.

(** In the states of [Good], the reporter answers every batch it may be
    given as the contract demands, with at least one value in each result,
    and stays in [Good]. *)
Definition obliges (Good : R -> Prop) : Prop :=
  forall (r : R) batch, Good r -> batch <> [] -> (length batch <= batchSize)%nat ->
    exists r' results, GetMetricsResults r batch = (r', inr results)
      /\ answers batch results
      /\ Forall (fun r => types.Values r <> []) results
      /\ Good r'.

End notions.

(** * Example inputs *)

(** A reporter for examples.  Its state counts the batch requests served;
    it answers every listing with [listing] and request number [k]
    (counting from 0) with [fetch k batch]. *)
Module mock.

Definition reporter (listing : error + list types.Metric)
           (fetch : nat -> list types.Metric -> error + list types.MetricDataResult)
  : Reporter nat := {|
  ListMetrics served _ _ := (served, listing);
  GetMetricsResults served batch := (S served, fetch served batch)
|}.

(** One result per metric of the batch, in order, each with [vals]. *)
Definition echo_from (vals : list float64) (k : nat) (batch : list types.Metric)
  : list types.MetricDataResult :=
  map (fun i => {| types.Id := Some (queryId i); types.Values := vals |})
      (seq k (length batch)).

Definition echo (vals : list float64) (batch : list types.Metric)
  : list types.MetricDataResult := echo_from vals 0 batch.

End mock.

Section inputs.

Local Existing Instance strcase_ascii.lib.
Local Existing Instance legacy.validation.

Definition ec2 (name : string) (i : nat) : types.Metric :=
  {| types.Dimensions :=
       [ {| types.Name := Some "InstanceId";
            types.Value := Some ("i-" ++ strconv.Itoa i)%string |} ];
     types.MetricName := Some name;
     types.Namespace := Some "AWS/EC2" |}.

Definition throttled : error := errorString "Throttling: Rate exceeded".

(** A collector as [newCollector] makes it, for the filters of the test. *)
Definition fresh : collector * @World nat := newCollector 0%nat "AWS/EC2" "NetworkIn".

(** The 567 metrics of the test. *)
Definition metrics567 : list types.Metric := map (ec2 "NetworkIn") (seq 0 567).

(** A reporter whose listing fails. *)
Definition unlisted : Reporter nat :=
  mock.reporter (inl throttled) (fun _ _ => inr []).

(** A reporter that lists the 567 metrics and answers every batch. *)
Definition healthy : Reporter nat :=
  mock.reporter (inr metrics567) (fun _ batch => inr (mock.echo [1.5%float] batch)).

(** The same, but its first answer is an error. *)
Definition flaky : Reporter nat :=
  mock.reporter (inr metrics567)
    (fun k batch => if (k =? 0)%nat then inl throttled
                    else inr (mock.echo [1.5%float] batch)).

(** Every batch answered by its contract, with one value per result. *)
Definition answer15 (k : nat) (batch : list types.Metric)
  : error + list types.MetricDataResult := inr (mock.echo [1.5%float] batch).

(** Two metrics of the test's namespace that differ in their names only
    (and in the instance they are about). *)
Definition two_names : Reporter nat :=
  mock.reporter (inr [ec2 "NetworkIn" 0; ec2 "NetworkOut" 1]) answer15.

(** Two metrics with different dimension names but one key. *)
Definition hostDisk : types.Metric :=
  {| types.Dimensions :=
       [ {| types.Name := Some "host"; types.Value := Some "h1" |};
         {| types.Name := Some "disk"; types.Value := Some "sda" |} ];
     types.MetricName := Some "Latency";
     types.Namespace := Some "App" |}.

Definition host_disk : types.Metric :=
  {| types.Dimensions :=
       [ {| types.Name := Some "host disk"; types.Value := Some "h1 sda" |} ];
     types.MetricName := Some "Errors";
     types.Namespace := Some "App" |}.

Definition colliding : Reporter nat :=
  mock.reporter (inr [hostDisk; host_disk]) answer15.

(** A batch of four metrics, and three ways to answer it: with a result
    too few, with ids that break the contract (one does not start with
    ["n"], position 3 is served twice and position 0 never), and with an
    id that leads nowhere. *)
Definition four : list types.Metric := map (ec2 "NetworkIn") (seq 0 4).

Definition result (id : string) (vals : list float64) : types.MetricDataResult :=
  {| types.Id := Some id; types.Values := vals |}.

Definition short : Reporter nat :=
  mock.reporter (inr four) (fun _ batch => inr (take 3 (mock.echo [1.5%float] batch))).

Definition misaddressed_results : list types.MetricDataResult :=
  [result "x3" [1.5%float]; result "n3" [1.5%float];
   result "n1" [1.5%float]; result "n2" [1.5%float]].

Definition misaddressed : Reporter nat :=
  mock.reporter (inr four) (fun _ _ => inr misaddressed_results).

(** A reporter that lists the 567 metrics and fails every request. *)
Definition down : Reporter nat :=
  mock.reporter (inr metrics567) (fun _ _ => inl throttled).

(** A metric whose namespace pointer is nil. *)
Definition nameless : types.Metric :=
  {| types.Dimensions := [];
     types.MetricName := Some "Latency";
     types.Namespace := None |}.

(** A metric whose dimension names have a space, and a reporter that lists
    it and answers by the contract, with two values. *)
Definition clusterBroker : types.Metric :=
  {| types.Dimensions :=
       [ {| types.Name := Some "Cluster Name"; types.Value := Some "eu-west-1" |};
         {| types.Name := Some "Broker ID"; types.Value := Some "kafka-3" |} ];
     types.MetricName := Some "BytesIn";
     types.Namespace := Some "AWS/Kafka" |}.

Definition spaced : Reporter nat :=
  mock.reporter (inr [clusterBroker])
                (fun _ _ => inr [result "n0" [2.5%float; 1.5%float]]).

End inputs.

(** * Properties *)

Section properties.

Context {R : Type} {Rep : Reporter R} {Val : prometheus.Validation} {Str : strcase.Lib}.

Implicit Types (c : collector) (w : @World R) (m : types.Metric) (e : error).

(** ** The monad and the steps of a batch *)

Ltac unmonad :=
  unfold deref, send, descMap_get, descMap_set, NewDesc, MustNewConstMetric,
         string_from_1, index, slice_set, slice_to in *;
  unfold mbind, M_bind, mret, M_ret, raise in *; cbn beta iota.

Lemma labels_eq ds w :
  labels ds w = match dimensions ds with
                | Some p => Done p w
                | None => Panicked NilDereference w
                end.
Proof.
  induction ds as [|d ds IH]; simpl; [reflexivity|].
  unmonad. destruct (types.Name d); [|reflexivity].
  destruct (types.Value d); [|reflexivity].
  rewrite IH. destruct (dimensions ds) as [[lns lvs]|]; reflexivity.
Qed.

Lemma sprintDims_from_eq ds : forall out w,
  exists s, sprintDims_from out ds w = match dimensions ds with
                | Some p => Done s w
                | None => Panicked NilDereference w
                end.
Proof.
  induction ds as [|d ds IH]; intros out w; simpl; [eexists; reflexivity|].
  unmonad. destruct (types.Name d) as [n|]; [|exists ""%string; reflexivity].
  destruct (types.Value d) as [v|]; [|exists ""%string; reflexivity].
  destruct (IH (out ++ n ++ "=" ++ v ++ ",")%string w) as [s Hs].
  exists s. rewrite Hs. destruct (dimensions ds) as [[lns lvs]|]; reflexivity.
Qed.

Lemma collectMetric_eq c m v w ns mn lns lvs :
  reads m ns mn lns lvs ->
  collectMetric c m v w =
    match descMap w !! descKey lns with
    | Some d =>
      match prometheus.NewConstMetric d v lvs with
      | inl e => Panicked (PanicError e) w
      | inr s => Done tt (emit w s)
      end
    | None =>
      let d := created (nextAddr w) ns mn lns in
      match prometheus.NewConstMetric d v lvs with
      | inl e => Panicked (PanicError e) (cache w (descKey lns) d)
      | inr s => Done tt (emit (cache w (descKey lns) d) s)
      end
    end.
Proof.
  intros (Hns & Hmn & Hds). unfold collectMetric. rewrite Hns, Hmn.
  unmonad. rewrite labels_eq, Hds. fold (descKey lns).
  destruct (descMap w !! descKey lns) as [d|].
  - destruct (prometheus.NewConstMetric d v lvs); reflexivity.
  - cbn. fold (descKey lns). fold (descName ns mn).
    destruct (prometheus.NewConstMetric _ v lvs); reflexivity.
Qed.

Lemma collectMetric_nil c m v w :
  (types.Namespace m = None \/ types.MetricName m = None
   \/ dimensions (types.Dimensions m) = None) ->
  collectMetric c m v w = Panicked NilDereference w.
Proof.
  intros Hnil. unfold collectMetric.
  destruct (types.Namespace m) as [ns|]; [|reflexivity].
  destruct (types.MetricName m) as [mn|]; [|reflexivity].
  destruct Hnil as [?|[?|Hds]]; try discriminate.
  unmonad. now rewrite labels_eq, Hds.
Qed.

Lemma NewConstMetric_accepts d v lvs :
  accepts d lvs = true -> prometheus.NewConstMetric d v lvs = inr (prometheus.constMetric d v lvs).
Proof.
  unfold accepts, prometheus.NewConstMetric, prometheus.validateLabelValues.
  intros Hacc. apply andb_prop in Hacc as [Hacc Hutf]. apply andb_prop in Hacc as [Herr Hlen].
  destruct (prometheus.err d); [discriminate|]. rewrite Hlen. simpl.
  destruct (find _ lvs) as [x|] eqn:Hfind; [|reflexivity].
  apply find_some in Hfind as [Hin Hx].
  rewrite forallb_forall in Hutf. rewrite (Hutf x Hin) in Hx. discriminate.
Qed.

Lemma NewConstMetric_rejects d v lvs :
  accepts d lvs = false -> exists e, prometheus.NewConstMetric d v lvs = inl e.
Proof.
  unfold accepts, prometheus.NewConstMetric, prometheus.validateLabelValues.
  intros Hacc. destruct (prometheus.err d); [eauto|]. simpl in Hacc.
  destruct (length lvs =? _)%nat; cbn [negb andb] in *; [|eauto].
  destruct (find _ lvs) as [x|] eqn:Hfind; [eauto|].
  exfalso. assert (forallb utf8.ValidString lvs = true) as Hall; [|congruence].
  apply forallb_forall. intros x Hx. pose proof (find_none _ _ Hfind x Hx) as Hn.
  now apply negb_false_iff in Hn.
Qed.

Lemma NewConstMetric_inr d v lvs s :
  prometheus.NewConstMetric d v lvs = inr s ->
  s = prometheus.constMetric d v lvs /\ accepts d lvs = true.
Proof.
  intros Hs. destruct (accepts d lvs) eqn:Hacc.
  - rewrite (NewConstMetric_accepts _ _ _ Hacc) in Hs. now inversion Hs.
  - destruct (NewConstMetric_rejects d v lvs Hacc) as [e He]. congruence.
Qed.

Lemma collectMetric_run c m v w ns mn lns lvs :
  reads m ns mn lns lvs ->
  collectMetric c m v w =
    let d := descriptor w ns mn lns in
    match prometheus.NewConstMetric d v lvs with
    | inl e => Panicked (PanicError e) (looked_up w ns mn lns)
    | inr s => Done tt (emit (looked_up w ns mn lns) s)
    end.
Proof.
  intros Hm. rewrite (collectMetric_eq _ _ _ _ _ _ _ _ Hm).
  unfold descriptor, looked_up. now destruct (descMap w !! descKey lns).
Qed.

Lemma position_lt batch r i : position batch r = Some i -> (i < length batch)%nat.
Proof.
  unfold position. destruct (types.Id r) as [[|a suffix]|]; try discriminate.
  destruct (strconv.Atoi suffix) as [|idx]; try discriminate.
  destruct ((0 <=? idx) && (idx <? Z.of_nat (length batch))) eqn:Hin; [|discriminate].
  intros [= <-]. apply andb_prop in Hin as [Hlo Hhi]. lia.
Qed.

Lemma collectBatch_body_resolved c batch r w i m :
  position batch r = Some i -> batch !! i = Some m ->
  collectBatch_body c batch r w =
    match dimensions (types.Dimensions m) with
    | None => Panicked NilDereference w
    | Some _ =>
      match types.Values r with
      | [] => Done tt w
      | v :: _ => collectMetric c m v w
      end
    end.
Proof.
  unfold position, collectBatch_body. intros Hpos Hm.
  destruct (types.Id r) as [[|a suffix]|]; try discriminate. unmonad.
  destruct (strconv.Atoi suffix) as [|idx]; try discriminate.
  destruct ((0 <=? idx) && (idx <? Z.of_nat (length batch))) eqn:Hin; [|discriminate].
  injection Hpos as <-. rewrite Hm.
  unfold sprintDims. destruct (sprintDims_from_eq (types.Dimensions m) "" w) as [s ->].
  destruct (dimensions (types.Dimensions m)); [|reflexivity].
  destruct (types.Values r); reflexivity.
Qed.

Lemma collectBatch_body_unresolved c batch r w :
  position batch r = None -> exists p, collectBatch_body c batch r w = Panicked p w.
Proof.
  unfold position, collectBatch_body. intros Hpos.
  destruct (types.Id r) as [[|a suffix]|]; unmonad; [eauto| |eauto].
  destruct (strconv.Atoi suffix) as [|idx]; [eauto|].
  destruct ((0 <=? idx) && (idx <? Z.of_nat (length batch))) eqn:Hin; [discriminate|eauto].
Qed.

Lemma collectBatch_eq c batch w r' res :
  batch <> [] ->
  GetMetricsResults (rep w) batch = (r', res) ->
  collectBatch c batch w =
    match res with
    | inl e => Done tt (emit (fetched w r' batch) (prometheus.invalidMetric (errDesc c) e))
    | inr results =>
      if (length results =? length batch)%nat
      then range results (collectBatch_body c batch) (fetched w r' batch)
      else Panicked (PanicString ("not same length: " ++ strconv.Itoa (length results)
                                    ++ " != " ++ strconv.Itoa (length batch)))
                    (fetched w r' batch)
    end.
Proof.
  intros Hne Hget. unfold collectBatch.
  destruct batch as [|m batch]; [congruence|]. cbn [length Nat.eqb].
  unfold reporter_GetMetricsResults. unmonad. rewrite Hget.
  destruct res as [e|results]; [reflexivity|].
  destruct (length results =? _)%nat; reflexivity.
Qed.

Lemma digits_string_of_uint (d : Decimal.uint) : forall acc : nat,
  strconv.digits (Z.of_nat acc) (NilEmpty.string_of_uint d)
  = Some (Z.of_nat (Nat.of_uint_acc d acc)).
Proof.
  induction d; intros acc; cbn [NilEmpty.string_of_uint strconv.digits Nat.of_uint_acc];
    [reflexivity|..];
    (match goal with
     | |- context [strconv.digit ?ch] =>
       let v := eval vm_compute in (strconv.digit ch) in
       change (strconv.digit ch) with v
     end;
     cbv beta iota; rewrite <- IHd; f_equal; rewrite Nat.tail_mul_spec; lia).
Qed.

Lemma string_of_uint_first (d : Decimal.uint) :
  match NilZero.string_of_uint d with
  | EmptyString => False
  | String c _ => Ascii.eqb c "-" = false /\ Ascii.eqb c "+" = false
  end.
Proof. destruct d; cbn; auto. Qed.

Lemma Atoi_Itoa (n : nat) :
  Z.of_nat n <= strconv.maxInt -> strconv.Atoi (strconv.Itoa n) = inr (Z.of_nat n).
Proof.
  intros Hmax. unfold strconv.Atoi, strconv.Itoa.
  pose proof (string_of_uint_first (Nat.to_uint n)) as Hfirst.
  assert (strconv.digits 0 (NilZero.string_of_uint (Nat.to_uint n)) = Some (Z.of_nat n))
    as Hdigits.
  { rewrite <- (DecimalNat.Unsigned.of_to n) at 2. unfold Nat.of_uint.
    destruct (Nat.to_uint n) eqn:Hd; try apply (digits_string_of_uint _ 0).
    reflexivity. }
  destruct (NilZero.string_of_uint (Nat.to_uint n)) as [|c0 t]; [contradiction|].
  destruct Hfirst as [-> ->]. cbn [orb]. rewrite Hdigits.
  unfold within, strconv.minInt.
  replace (- 2 ^ 63 <=? Z.of_nat n) with true by (symmetry; apply Z.leb_le; lia).
  replace (Z.of_nat n <=? strconv.maxInt) with true by (symmetry; now apply Z.leb_le).
  reflexivity.
Qed.

Lemma position_queryId batch i vals :
  (i < length batch)%nat -> Z.of_nat i <= strconv.maxInt ->
  position batch {| types.Id := Some (queryId i); types.Values := vals |} = Some i.
Proof.
  intros Hi Hmax. unfold position, queryId. cbn [types.Id].
  change (String.append "n" (strconv.Itoa i)) with (String "n" (strconv.Itoa i)).
  cbv beta iota. rewrite (Atoi_Itoa i Hmax).
  replace ((0 <=? Z.of_nat i) && (Z.of_nat i <? Z.of_nat (length batch))) with true.
  - now rewrite Nat2Z.id.
  - symmetry. apply andb_true_intro. split; [apply Z.leb_le|apply Z.ltb_lt]; lia.
Qed.

(** Loops *)
Lemma range_cons {A} (x : A) l (body : A -> M unit) w :
  range (x :: l) body w =
    match body x w with
    | Done _ w' => range l body w'
    | Panicked p w' => Panicked p w'
    end.
Proof. reflexivity. Qed.

Lemma range_app {A} (l1 l2 : list A) (body : A -> M unit) w :
  range (l1 ++ l2) body w =
    match range l1 body w with
    | Done _ w' => range l2 body w'
    | Panicked p w' => Panicked p w'
    end.
Proof.
  revert w. induction l1 as [|x l1 IH]; intros w; [reflexivity|].
  cbn [app]. rewrite !range_cons. destruct (body x w); [apply IH|reflexivity].
Qed.


Lemma collectMetric_panic c m v w p w' :
  collectMetric c m v w = Panicked p w' -> fromPanicString p = false.
Proof.
  destruct (types.Namespace m) as [ns|] eqn:Hns;
    [|rewrite collectMetric_nil by auto; now intros [= <- <-]].
  destruct (types.MetricName m) as [mn|] eqn:Hmn;
    [|rewrite collectMetric_nil by auto; now intros [= <- <-]].
  destruct (dimensions (types.Dimensions m)) as [[lns lvs]|] eqn:Hds;
    [|rewrite collectMetric_nil by auto; now intros [= <- <-]].
  rewrite (collectMetric_run c m v w ns mn lns lvs) by (repeat split; assumption).
  cbv zeta. destruct (prometheus.NewConstMetric _ v lvs); [|discriminate].
  now intros [= <- <-].
Qed.

Lemma collectBatch_body_panic c batch r w p w' :
  collectBatch_body c batch r w = Panicked p w' -> fromPanicString p = false.
Proof.
  unfold collectBatch_body.
  destruct (types.Id r) as [[|a suffix]|]; unmonad; try (now intros [= <- <-]).
  destruct (strconv.Atoi suffix) as [|idx]; [now intros [= <- <-]|].
  destruct ((0 <=? idx) && (idx <? Z.of_nat (length batch))); [|now intros [= <- <-]].
  destruct (batch !! Z.to_nat idx) as [m|]; [|now intros [= <- <-]].
  unfold sprintDims. destruct (sprintDims_from_eq (types.Dimensions m) "" w) as [s ->].
  destruct (dimensions (types.Dimensions m)); [|now intros [= <- <-]].
  destruct (types.Values r) as [|v vs]; [discriminate|].
  apply collectMetric_panic.
Qed.

Lemma range_panic {A} (body : A -> M unit) (ok : panic -> bool) :
  (forall x w p w', body x w = Panicked p w' -> ok p = true) ->
  forall l w p w', range l body w = Panicked p w' -> ok p = true.
Proof.
  intros Hbody l. induction l as [|x l IH]; intros w p w'; [discriminate|].
  rewrite range_cons. destruct (body x w) as [[] w1|q w1] eqn:Hx.
  - apply IH.
  - intros [= <- <-]. eapply Hbody, Hx.
Qed.

(** C5: for a non-empty batch on which [GetMetricsResults] succeeds, a
    result count different from the batch count makes [collectBatch] panic
    with the message of the check; nothing was sent on the channel (no error
    sample) and no later batch is processed.  When the counts are equal,
    [collectBatch] never panics with a message: the check raises nothing. *)
Theorem collectBatch_not_same_length c batch w (r' : R) results :
  batch <> [] ->
  GetMetricsResults (rep w) batch = (r', inr results) ->
  let stop : outcome unit :=
    Panicked (PanicString ("not same length: " ++ strconv.Itoa (length results)
                             ++ " != " ++ strconv.Itoa (length batch)))
             (fetched w r' batch) in
  (length results <> length batch ->
     collectBatch c batch w = stop
     /\ forall later, range (batch :: later) (collectBatch c) w = stop)
  /\ (length results = length batch ->
      forall msg w', collectBatch c batch w <> Panicked (PanicString msg) w').
Proof.
  intros Hne Hget stop.
  pose proof (collectBatch_eq c batch w r' (inr results) Hne Hget) as Hrun.
  cbv beta iota in Hrun. split.
  - intros Hlen. apply Nat.eqb_neq in Hlen. rewrite Hlen in Hrun.
    split; [exact Hrun|]. intros later. rewrite range_cons. now rewrite Hrun.
  - intros Hlen msg w' Hpanic. rewrite Hlen, Nat.eqb_refl in Hrun. rewrite Hrun in Hpanic.
    apply (range_panic (collectBatch_body c batch) (fun p => negb (fromPanicString p)))
      in Hpanic; [discriminate|].
    intros x w0 p w0' Hx. now rewrite (collectBatch_body_panic _ _ _ _ _ _ Hx).
Qed.

(** C6: the batch position of a result is read from the bytes after the
    first byte of its id: the id ["n<i>"] of a position [i] of the batch
    leads to [i], and the metric at the position an id leads to is the one
    the result is processed with.  An id that leads to no position of the
    batch (nil, empty, not a number, out of range) makes the loop body, and
    with it the loop over the results, panic in the world it started in:
    nothing is sent, in particular no error sample. *)
Theorem result_id_gives_position c batch :
  (forall i vals, (i < length batch)%nat -> Z.of_nat i <= strconv.maxInt ->
     position batch {| types.Id := Some (queryId i); types.Values := vals |} = Some i)
  /\ (forall r i, position batch r = Some i ->
        exists m, batch !! i = Some m
          /\ forall w, collectBatch_body c batch r w =
               match dimensions (types.Dimensions m) with
               | None => Panicked NilDereference w
               | Some _ =>
                 match types.Values r with
                 | [] => Done tt w
                 | v :: _ => collectMetric c m v w
                 end
               end)
  /\ (forall r w, position batch r = None ->
        exists p, fromPanicString p = false
          /\ collectBatch_body c batch r w = Panicked p w
          /\ forall later, range (r :: later) (collectBatch_body c batch) w = Panicked p w).
Proof.
  split; [|split].
  - intros i vals. apply position_queryId.
  - intros r i Hpos. pose proof (position_lt batch r i Hpos) as Hlt.
    destruct (lookup_lt_is_Some_2 batch i Hlt) as [m Hm]. exists m. split; [exact Hm|].
    intros w. now apply collectBatch_body_resolved with (i := i).
  - intros r w Hpos. destruct (collectBatch_body_unresolved c batch r w Hpos) as [p Hp].
    exists p. split; [eapply collectBatch_body_panic, Hp|]. split; [exact Hp|].
    intros later. rewrite range_cons. now rewrite Hp.
Qed.

(** C4, as amended: a result without values sends nothing, whatever else
    happens to it; a result with values [v :: vs] that is processed to the
    end sends exactly one metric, a sample with value [v].  And a result
    is processed to the end when its id leads to a metric without nil
    pointers: at once when it has no values, and with the sample sent
    under the metric's descriptor when [NewConstMetric] accepts the label
    values. *)
Theorem result_values_to_samples c batch r w :
  (types.Values r = [] -> sent (final (collectBatch_body c batch r w)) = sent w)
  /\ (forall v vs, types.Values r = v :: vs ->
        forall w', collectBatch_body c batch r w = Done tt w' ->
        exists d lvs, sent w' = sent w ++ [prometheus.constMetric d v lvs])
  /\ (forall i m ns mn lns lvs,
        position batch r = Some i -> batch !! i = Some m -> reads m ns mn lns lvs ->
        (types.Values r = [] -> collectBatch_body c batch r w = Done tt w)
        /\ (forall v vs, types.Values r = v :: vs ->
              accepts (descriptor w ns mn lns) lvs = true ->
              collectBatch_body c batch r w =
                Done tt (emit (looked_up w ns mn lns)
                              (prometheus.constMetric (descriptor w ns mn lns) v lvs)))).
Proof.
  assert (forall i m ns mn lns lvs,
        position batch r = Some i -> batch !! i = Some m -> reads m ns mn lns lvs ->
        collectBatch_body c batch r w =
          match types.Values r with
          | [] => Done tt w
          | v :: _ =>
            match prometheus.NewConstMetric (descriptor w ns mn lns) v lvs with
            | inl e => Panicked (PanicError e) (looked_up w ns mn lns)
            | inr s => Done tt (emit (looked_up w ns mn lns) s)
            end
          end) as Hrun.
  { intros i m ns mn lns lvs Hpos Hm Hreads.
    rewrite (collectBatch_body_resolved c batch r w i m Hpos Hm).
    destruct Hreads as (Hns & Hmn & Hds). rewrite Hds.
    destruct (types.Values r) as [|v vs]; [reflexivity|].
    now apply collectMetric_run. }
  assert (forall ns mn lns, sent (looked_up w ns mn lns) = sent w) as Hsent.
  { intros ns mn lns. unfold looked_up. now destruct (descMap w !! descKey lns). }
  assert (forall p w', collectBatch_body c batch r w = Panicked p w' -> sent w' = sent w)
    as Hpanic.
  { intros p w'. destruct (position batch r) as [i|] eqn:Hpos.
    - pose proof (position_lt batch r i Hpos) as Hlt.
      destruct (lookup_lt_is_Some_2 batch i Hlt) as [m Hm].
      destruct (types.Namespace m) as [ns|] eqn:Hns;
      [destruct (types.MetricName m) as [mn|] eqn:Hmn;
       [destruct (dimensions (types.Dimensions m)) as [[lns lvs]|] eqn:Hds|]|].
      + rewrite (Hrun i m ns mn lns lvs eq_refl Hm) by (repeat split; assumption).
        destruct (types.Values r) as [|v vs]; [discriminate|].
        destruct (prometheus.NewConstMetric _ v lvs); [|discriminate].
        intros [= <- <-]. apply Hsent.
      + rewrite (collectBatch_body_resolved c batch r w i m Hpos Hm), Hds.
        now intros [= <- <-].
      + rewrite (collectBatch_body_resolved c batch r w i m Hpos Hm).
        destruct (dimensions _); [|now intros [= <- <-]].
        destruct (types.Values r); [discriminate|].
        rewrite collectMetric_nil by auto. now intros [= <- <-].
      + rewrite (collectBatch_body_resolved c batch r w i m Hpos Hm).
        destruct (dimensions _); [|now intros [= <- <-]].
        destruct (types.Values r); [discriminate|].
        rewrite collectMetric_nil by auto. now intros [= <- <-].
    - destruct (collectBatch_body_unresolved c batch r w Hpos) as [q ->].
      now intros [= <- <-]. }
  split; [|split].
  - intros Hvals. destruct (collectBatch_body c batch r w) as [[] w'|p w'] eqn:Hbody;
      [|apply (Hpanic p w' eq_refl)].
    cbn. destruct (position batch r) as [i|] eqn:Hpos.
    + pose proof (position_lt batch r i Hpos) as Hlt.
      destruct (lookup_lt_is_Some_2 batch i Hlt) as [m Hm].
      rewrite (collectBatch_body_resolved c batch r w i m Hpos Hm), Hvals in Hbody.
      destruct (dimensions _); now inversion Hbody.
    + destruct (collectBatch_body_unresolved c batch r w Hpos) as [q Hq]. congruence.
  - intros v vs Hvals w' Hbody. destruct (position batch r) as [i|] eqn:Hpos.
    + pose proof (position_lt batch r i Hpos) as Hlt.
      destruct (lookup_lt_is_Some_2 batch i Hlt) as [m Hm].
      rewrite (collectBatch_body_resolved c batch r w i m Hpos Hm), Hvals in Hbody.
      destruct (dimensions (types.Dimensions m)) as [[lns lvs]|] eqn:Hds; [|discriminate].
      destruct (types.Namespace m) as [ns|] eqn:Hns;
        [|rewrite collectMetric_nil in Hbody by auto; discriminate].
      destruct (types.MetricName m) as [mn|] eqn:Hmn;
        [|rewrite collectMetric_nil in Hbody by auto; discriminate].
      rewrite (collectMetric_run c m v w ns mn lns lvs) in Hbody by (repeat split; assumption).
      cbv zeta in Hbody.
      destruct (prometheus.NewConstMetric _ v lvs) as [|s] eqn:Hnew; [discriminate|].
      apply NewConstMetric_inr in Hnew as [-> _]. injection Hbody as <-.
      exists (descriptor w ns mn lns), lvs. cbn. now rewrite Hsent.
    + destruct (collectBatch_body_unresolved c batch r w Hpos) as [q Hq]. congruence.
  - intros i m ns mn lns lvs Hpos Hm Hreads. rewrite (Hrun i m ns mn lns lvs Hpos Hm Hreads).
    split; [now intros ->|]. intros v vs -> Hacc.
    now rewrite (NewConstMetric_accepts _ v lvs Hacc).
Qed.

(** ** Batches *)

Lemma batches_upto_fuel {A} (n : nat) : (0 < n)%nat ->
  forall (f1 f2 : nat) (l : list A),
    (length l <= f1)%nat -> (length l <= f2)%nat ->
    batches_upto f1 n l = batches_upto f2 n l.
Proof.
  intros Hn f1. induction f1 as [|f1 IH]; intros f2 l H1 H2.
  - destruct l; [|cbn in H1; lia]. now destruct f2.
  - destruct l as [|x l]; [now destruct f2|].
    destruct f2 as [|f2]; [cbn in H2; lia|].
    cbn [batches_upto]. f_equal. apply IH; rewrite length_drop; cbn [length] in *; lia.
Qed.

Lemma batches_full {A} (n : nat) (a l : list A) :
  (0 < n)%nat -> length a = n -> batches n (a ++ l) = a :: batches n l.
Proof.
  intros Hn Ha. unfold batches. destruct a as [|x a]; [cbn in Ha; lia|].
  subst n. cbn [app length batches_upto take drop].
  rewrite length_app, take_app_length, drop_app_length. f_equal.
  apply batches_upto_fuel; lia.
Qed.

Lemma batches_short {A} (n : nat) (l : list A) :
  l <> [] -> (length l <= n)%nat -> batches n l = [l].
Proof.
  intros Hne Hlen. unfold batches. destruct l as [|x l]; [congruence|].
  cbn [length batches_upto]. rewrite take_ge by exact Hlen.
  rewrite drop_ge by exact Hlen. now destruct (length l).
Qed.

Lemma concat_batches {A} (n : nat) (l : list A) : (0 < n)%nat -> concat (batches n l) = l.
Proof.
  intros Hn. unfold batches. remember (length l) as f eqn:Hf.
  assert (length l <= f)%nat as Hle by lia. clear Hf. revert l Hle.
  induction f as [|f IH]; intros l Hle.
  - destruct l; [reflexivity|cbn in Hle; lia].
  - destruct l as [|x l]; [reflexivity|]. cbn [batches_upto concat].
    rewrite IH by (rewrite length_drop; cbn [length] in *; lia).
    apply take_drop.
Qed.

Lemma batches_lengths {A} (n : nat) (l : list A) : (0 < n)%nat ->
  Forall (fun b => (0 < length b <= n)%nat) (batches n l).
Proof.
  intros Hn. unfold batches. remember (length l) as f eqn:Hf.
  assert (length l <= f)%nat as Hle by lia. clear Hf. revert l Hle.
  induction f as [|f IH]; intros l Hle; [constructor|].
  destruct l as [|x l]; [constructor|]. cbn [batches_upto]. constructor.
  - rewrite length_take. cbn [length]. lia.
  - apply IH. rewrite length_drop. cbn [length] in *. lia.
Qed.

(** All batches but the last are full. *)
Lemma batches_full_but_last {A} (n : nat) (l : list A) bs b :
  (0 < n)%nat -> batches n l = bs ++ [b] -> Forall (fun b => length b = n) bs.
Proof.
  intros Hn. unfold batches. remember (length l) as f eqn:Hf.
  assert (length l <= f)%nat as Hle by lia. clear Hf. revert l Hle bs.
  induction f as [|f IH]; intros l Hle bs Hbs; [now destruct bs|].
  destruct l as [|x l]; [now destruct bs|]. cbn [batches_upto] in Hbs.
  destruct bs as [|b0 bs].
  - constructor.
  - cbn [app] in Hbs. injection Hbs as Hb0 Hrest. constructor.
    + subst b0. rewrite length_take.
      destruct (drop n (x :: l)) as [|y t] eqn:Hdrop.
      * destruct f; destruct bs; discriminate.
      * apply (f_equal length) in Hdrop. rewrite length_drop in Hdrop.
        cbn [length] in *. lia.
    + apply (IH (drop n (x :: l))); [|exact Hrest].
      rewrite length_drop. cbn [length] in *. lia.
Qed.

Lemma batches_567 {A} (l : list A) :
  length l = 567%nat -> map length (batches batchSize l) = [500; 67]%nat.
Proof.
  intros Hl. rewrite <- (take_drop 500 l).
  rewrite batches_full by (try rewrite length_take; unfold batchSize; lia).
  rewrite batches_short.
  - cbn. rewrite length_take, length_drop. f_equal; [lia|f_equal; lia].
  - intros Hnil. apply (f_equal length) in Hnil. rewrite length_drop in Hnil. cbn in Hnil. lia.
  - rewrite length_drop. unfold batchSize. lia.
Qed.

(** ** The loop of [Collect] *)

Lemma range_with_cons {A S} (x : A) l (body : A -> S -> M S) (s : S) w :
  range_with (x :: l) body s w =
    match body x s w with
    | Done s' w' => range_with l body s' w'
    | Panicked p w' => Panicked p w'
    end.
Proof. reflexivity. Qed.

Lemma Collect_body_eq c x batch i w :
  (i < len batch)%nat ->
  Collect_body c x (batch, i) w =
    let batch' := {| array := <[i:=x]> (array batch); len := len batch |} in
    if (S i <? batchSize)%nat then Done (batch', S i) w
    else
      match collectBatch c (elems batch') w with
      | Done _ w' => Done (batch', 0%nat) w'
      | Panicked p w' => Panicked p w'
      end.
Proof.
  intros Hi. unfold Collect_body. unmonad.
  replace (i <? len batch)%nat with true by (symmetry; now apply Nat.ltb_lt).
  cbv zeta. destruct (S i <? batchSize)%nat; reflexivity.
Qed.

Lemma Collect_end_eq c batch i w :
  (i <= cap batch)%nat ->
  Collect_end c (batch, i) w = collectBatch c (take i (array batch)) w.
Proof.
  intros Hi. unfold Collect_end. unmonad. cbn [fst snd].
  replace (i <=? cap batch)%nat with true by (symmetry; now apply Nat.leb_le).
  reflexivity.
Qed.

Lemma Collect_loop c : forall rest batch i w,
  cap batch = batchSize -> (i < batchSize)%nat -> (len batch <= batchSize)%nat ->
  (len batch = batchSize \/ i + length rest <= len batch)%nat ->
  match range_with rest (Collect_body c) (batch, i) w with
  | Done st w' => Collect_end c st w'
  | Panicked p w' => Panicked p w'
  end
  = range (batches batchSize (take i (array batch) ++ rest)) (collectBatch c) w.
Proof.
  induction rest as [|x rest IH]; intros batch i w Hcap Hi Hlen Hfit.
  - cbn [range_with]. unfold mret, M_ret. rewrite Collect_end_eq by lia.
    rewrite app_nil_r.
    destruct (take i (array batch)) as [|y t] eqn:Htake; [reflexivity|].
    rewrite batches_short; [|discriminate|].
    + rewrite range_cons. cbn [range]. unfold mret, M_ret.
      now destruct (collectBatch c (y :: t) w) as [[] ?|].
    + rewrite <- Htake, length_take. lia.
  - assert (i < len batch)%nat as Hilen by (cbn [length] in Hfit; lia).
    assert (i < length (array batch))%nat as Hiarr by (unfold cap in Hcap; lia).
    rewrite range_with_cons, (Collect_body_eq c x batch i w Hilen). cbv zeta.
    assert (take (S i) (<[i:=x]> (array batch)) = take i (array batch) ++ [x]) as Htake.
    { rewrite (take_S_r _ _ x) by (now apply list_lookup_insert_eq).
      now rewrite take_insert_ge by lia. }
    replace (take i (array batch) ++ x :: rest)
      with ((take i (array batch) ++ [x]) ++ rest) by (now rewrite <- app_assoc).
    destruct (S i <? batchSize)%nat eqn:Hnext.
    + apply Nat.ltb_lt in Hnext. rewrite <- Htake.
      apply (IH {| array := <[i:=x]> (array batch); len := len batch |} (S i) w).
      * unfold cap. cbn [array]. now rewrite length_insert.
      * exact Hnext.
      * exact Hlen.
      * cbn [length len] in *. lia.
    + apply Nat.ltb_ge in Hnext.
      assert (len batch = batchSize) as Hfull by lia.
      assert (S i = batchSize) as HSi by lia.
      unfold elems. cbn [array len].
      replace (take (len batch) (<[i:=x]> (array batch)))
        with (take i (array batch) ++ [x]) by (now rewrite Hfull, <- HSi, Htake).
      rewrite <- HSi.
      rewrite (batches_full (S i) (take i (array batch) ++ [x]) rest);
        [|lia|rewrite length_app, length_take; cbn [length]; lia].
      rewrite range_cons.
      destruct (collectBatch c (take i (array batch) ++ [x]) w) as [[] w1|p w1];
        [|reflexivity].
      rewrite HSi.
      apply (IH {| array := <[i:=x]> (array batch); len := len batch |} 0%nat w1).
      * unfold cap. cbn [array]. now rewrite length_insert.
      * unfold batchSize. lia.
      * exact Hlen.
      * now left.
Qed.

(** [Collect] lists the metrics and then runs [collectBatch] on each batch
    of the listing in turn. *)
Lemma Collect_batches c w :
  Collect c w =
    match ListMetrics (rep w) (namespace c) (metricName c) with
    | (r', inl e) => Done tt (emit (listed w r') (prometheus.invalidMetric (errDesc c) e))
    | (r', inr metrics) =>
      range (batches batchSize metrics) (collectBatch c) (listed w r')
    end.
Proof.
  unfold Collect, reporter_ListMetrics. unfold mbind at 1, M_bind at 1.
  destruct (ListMetrics (rep w) (namespace c) (metricName c)) as [r' [e|metrics]];
    [reflexivity|].
  fold (listed w r'). cbv zeta.
  pose proof (Collect_loop c metrics
                (make (if (batchSize <? length metrics)%nat then batchSize else length metrics)
                      batchSize) 0%nat (listed w r')) as Hloop.
  rewrite take_0 in Hloop. cbn [app] in Hloop. rewrite <- Hloop; clear Hloop.
  { unfold mbind, M_bind.
    destruct (range_with metrics (Collect_body c) _ (listed w r')) as [[b i] w1|];
      reflexivity. }
  - unfold cap, make. cbn [array]. apply length_replicate.
  - unfold batchSize. lia.
  - cbn [make len]. destruct (batchSize <? length metrics)%nat eqn:Hlt; [lia|].
    apply Nat.ltb_ge in Hlt. exact Hlt.
  - cbn [make len]. destruct (batchSize <? length metrics)%nat; [now left|right; lia].
Qed.

(** ** Keys *)

Lemma spaces_app (a b : string) : spaces (a ++ b) = (spaces a + spaces b)%nat.
Proof. induction a as [|ch a IH]; simpl; [reflexivity|]. rewrite IH. lia. Qed.

Lemma spaces_Join (l : list string) :
  spaces (strings.Join l " ") = (sum_list (map spaces l) + (length l - 1))%nat.
Proof.
  induction l as [|a l IH]; [reflexivity|].
  destruct l as [|b l]; [cbn; lia|].
  change (strings.Join (a :: b :: l) " ")
    with (a ++ " " ++ strings.Join (b :: l) " ")%string.
  rewrite !spaces_app, IH. cbn. lia.
Qed.

(** Two strings that agree up to their first space. *)
Lemma first_space (a b x y : string) :
  spaceless a = true -> spaceless b = true ->
  (a ++ " " ++ x = b ++ " " ++ y)%string -> a = b /\ x = y.
Proof.
  unfold spaceless. revert b. induction a as [|ch a IH]; intros [|ch' b] Ha Hb Heq.
  - cbn in Heq. now injection Heq.
  - cbn in Heq, Hb. injection Heq as <- _. cbn in Hb. discriminate.
  - cbn in Heq, Ha. injection Heq as -> _. cbn in Ha. discriminate.
  - cbn in Heq. injection Heq as <- Heq. cbn in Ha, Hb.
    destruct (Ascii.eqb ch " "); [discriminate|]. cbn in Ha, Hb.
    destruct (IH b Ha Hb Heq) as [-> ->]. now split.
Qed.

Lemma spaceless_sum (l : list string) :
  sum_list (map spaces l) = 0%nat <-> forallb spaceless l = true.
Proof.
  induction l as [|a l IH]; [now split|]. cbn. unfold spaceless at 1.
  rewrite andb_true_iff, Nat.eqb_eq, <- IH. lia.
Qed.

Lemma Join_inj_spaceless (l1 : list string) : forall l2,
  forallb spaceless l1 = true -> forallb spaceless l2 = true ->
  length l1 = length l2 ->
  strings.Join l1 " " = strings.Join l2 " " -> l1 = l2.
Proof.
  induction l1 as [|a l1 IH]; intros [|b l2] H1 H2 Hlen Heq; try discriminate;
    [reflexivity|].
  cbn in H1, H2. apply andb_prop in H1 as [Ha H1]. apply andb_prop in H2 as [Hb H2].
  destruct l1 as [|a' l1], l2 as [|b' l2]; try discriminate.
  - cbn in Heq. now subst.
  - change (a ++ " " ++ strings.Join (a' :: l1) " "
            = b ++ " " ++ strings.Join (b' :: l2) " ")%string in Heq.
    destruct (first_space _ _ _ _ Ha Hb Heq) as [-> Htail].
    f_equal. apply IH; auto.
Qed.

(** A key determines a sequence of names without spaces among those of its
    length. *)
Lemma Join_inj_length (l1 l2 : list string) :
  forallb spaceless l1 = true -> length l1 = length l2 ->
  strings.Join l1 " " = strings.Join l2 " " -> l1 = l2.
Proof.
  intros H1 Hlen Heq. apply Join_inj_spaceless; auto.
  apply spaceless_sum. apply spaceless_sum in H1.
  pose proof (f_equal spaces Heq) as Hsp. rewrite !spaces_Join in Hsp. lia.
Qed.

Lemma plain_name_spaceless (l : list string) :
  forallb plain_name l = true -> forallb spaceless l = true.
Proof.
  rewrite !forallb_forall. intros Hl x Hx. specialize (Hl x Hx).
  unfold plain_name in Hl. now apply andb_prop in Hl as [_ ?].
Qed.

(** And it determines a sequence of plain names. *)
Lemma Join_inj_plain (l1 l2 : list string) :
  forallb plain_name l1 = true -> forallb plain_name l2 = true ->
  strings.Join l1 " " = strings.Join l2 " " -> l1 = l2.
Proof.
  intros H1 H2 Heq.
  pose proof (plain_name_spaceless _ H1) as S1.
  pose proof (plain_name_spaceless _ H2) as S2.
  apply Join_inj_spaceless; auto.
  pose proof (f_equal spaces Heq) as Hsp. rewrite !spaces_Join in Hsp.
  apply spaceless_sum in S1, S2. rewrite S1, S2 in Hsp.
  assert (forall (a : string) l, forallb plain_name (a :: l) = true ->
            strings.Join (a :: l) " " <> ""%string) as Hne.
  { intros a l Hal Hj. cbn in Hal. apply andb_prop in Hal as [Ha _].
    unfold plain_name in Ha. apply andb_prop in Ha as [Ha _].
    destruct a as [|ch a]; [discriminate|]. destruct l; discriminate. }
  destruct l1 as [|a l1], l2 as [|b l2]; [reflexivity| | |cbn [length] in *; lia].
  - symmetry in Heq. now apply Hne in Heq.
  - now apply Hne in Heq.
Qed.


(** ** Runs without failure *)

Lemma dimensions_length ds lns lvs :
  dimensions ds = Some (lns, lvs) -> length lns = length lvs.
Proof.
  revert lns lvs. induction ds as [|d ds IH]; intros lns lvs; cbn.
  - now intros [= <- <-].
  - destruct (types.Name d), (types.Value d); try discriminate.
    destruct (dimensions ds) as [[lns' lvs']|]; [|discriminate].
    intros [= <- <-]. cbn. f_equal. now apply IH.
Qed.

Lemma plain_reads m :
  plain m = true ->
  exists ns mn lns lvs,
    reads m ns mn lns lvs
    /\ forallb plain_name lns = true
    /\ prometheus.checkDesc (descName ns mn) (descHelp ns mn) lns = None
    /\ forallb utf8.ValidString lvs = true.
Proof.
  unfold plain, reads.
  destruct (types.Namespace m) as [ns|]; [|discriminate].
  destruct (types.MetricName m) as [mn|]; [|discriminate].
  destruct (dimensions (types.Dimensions m)) as [[lns lvs]|]; [|discriminate].
  intros Hp. apply andb_prop in Hp as [Hp Hutf]. apply andb_prop in Hp as [Hnames Hdesc].
  exists ns, mn, lns, lvs. repeat split; auto.
  now destruct (prometheus.checkDesc _ _ lns).
Qed.

Lemma produced_refl w : produced w w 0 [].
Proof. split; [now rewrite app_nil_r|]. exists []. now rewrite app_nil_r. Qed.

Lemma produced_trans w1 w2 w3 n1 n2 bs1 bs2 :
  produced w1 w2 n1 bs1 -> produced w2 w3 n2 bs2 ->
  produced w1 w3 (n1 + n2) (bs1 ++ bs2).
Proof.
  intros (Hc1 & s1 & Hs1 & Hn1 & Hi1) (Hc2 & s2 & Hs2 & Hn2 & Hi2). split.
  - now rewrite Hc2, Hc1, app_assoc.
  - exists (s1 ++ s2). rewrite Hs2, Hs1, <- app_assoc, length_app, forallb_app, Hi1, Hi2.
    repeat split; auto.
Qed.

Lemma collectMetric_plain c m v w :
  plain m = true -> plain_cache w ->
  exists w', collectMetric c m v w = Done tt w'
             /\ plain_cache w' /\ produced w w' 1 [].
Proof.
  intros Hplain Hcache.
  destruct (plain_reads m Hplain) as (ns & mn & lns & lvs & Hreads & Hnames & Hdesc & Hutf).
  pose proof (dimensions_length _ _ _ (proj2 (proj2 Hreads))) as Hlen.
  rewrite (collectMetric_eq c m v w ns mn lns lvs Hreads).
  destruct (descMap w !! descKey lns) as [d|] eqn:Hfound.
  - destruct (Hcache _ _ Hfound) as (Hkey & Herr & Hlabels).
    assert (prometheus.variableLabels d = lns) as Hd by (now apply Join_inj_plain).
    rewrite NewConstMetric_accepts.
    + eexists. split; [reflexivity|]. split; [exact Hcache|].
      split; [cbn; now rewrite app_nil_r|]. now eexists [_].
    + unfold accepts. rewrite Herr, Hd, Hutf, <- Hlen, Nat.eqb_refl. reflexivity.
  - cbv zeta. rewrite NewConstMetric_accepts.
    + eexists. split; [reflexivity|]. split.
      * intros key d. cbn. intros Hlook. apply lookup_insert_Some in Hlook as [[<- <-]|[_ Hlook]].
        -- cbn. auto.
        -- now apply Hcache.
      * split; [cbn; now rewrite app_nil_r|]. now eexists [_].
    + unfold accepts. cbn. rewrite Hdesc, Hutf, <- Hlen, Nat.eqb_refl. reflexivity.
Qed.

Lemma collectBatch_body_plain c batch r w :
  serves batch r -> plain_cache w ->
  exists w', collectBatch_body c batch r w = Done tt w'
             /\ plain_cache w' /\ produced w w' 1 [].
Proof.
  intros (i & m & Hpos & Hm & Hplain & Hvals) Hcache.
  rewrite (collectBatch_body_resolved c batch r w i m Hpos Hm).
  destruct (plain_reads m Hplain) as (ns & mn & lns & lvs & (_ & _ & ->) & _).
  destruct (types.Values r) as [|v vs]; [congruence|].
  now apply collectMetric_plain.
Qed.

Lemma range_body_plain c batch results : forall w,
  Forall (serves batch) results -> plain_cache w ->
  exists w', range results (collectBatch_body c batch) w = Done tt w'
             /\ plain_cache w' /\ produced w w' (length results) [].
Proof.
  induction results as [|r results IH]; intros w Hall Hcache.
  - exists w. split; [reflexivity|]. split; [exact Hcache|apply produced_refl].
  - inversion Hall as [|? ? Hr Hrest]; subst.
    destruct (collectBatch_body_plain c batch r w Hr Hcache) as (w1 & Hrun & Hc1 & Hp1).
    destruct (IH w1 Hrest Hc1) as (w2 & Hrun2 & Hc2 & Hp2).
    exists w2. rewrite range_cons, Hrun. split; [exact Hrun2|]. split; [exact Hc2|].
    apply (produced_trans _ _ _ 1 (length results) [] [] Hp1 Hp2).
Qed.

Lemma answers_length batch results : answers batch results -> length results = length batch.
Proof.
  intros Hperm. apply Permutation_length in Hperm.
  now rewrite !length_map, length_seq in Hperm.
Qed.

Lemma answers_position batch results r :
  (length batch <= batchSize)%nat ->
  answers batch results -> In r results ->
  exists i, position batch r = Some i.
Proof.
  intros Hsize Hperm Hr.
  assert (In (types.Id r) (map (fun i => Some (queryId i)) (seq 0 (length batch)))) as Hid.
  { eapply Permutation_in; [exact Hperm|]. now apply in_map. }
  apply in_map_iff in Hid as (i & Hid & Hi). apply in_seq in Hi.
  exists i. destruct r as [id vals]. cbn in Hid. subst id.
  apply position_queryId; [lia|]. unfold batchSize, strconv.maxInt in *. lia.
Qed.

Lemma collectBatch_served c batch w (r' : R) results :
  batch <> [] -> GetMetricsResults (rep w) batch = (r', inr results) ->
  length results = length batch -> Forall (serves batch) results -> plain_cache w ->
  exists w', collectBatch c batch w = Done tt w'
             /\ plain_cache w' /\ produced w w' (length batch) [batch].
Proof.
  intros Hne Hget Hlen Hserves Hcache.
  rewrite (collectBatch_eq c batch w r' _ Hne Hget). rewrite Hlen, Nat.eqb_refl.
  destruct (range_body_plain c batch results (fetched w r' batch) Hserves Hcache)
    as (w' & Hrun & Hc & Hp).
  exists w'. split; [exact Hrun|]. split; [exact Hc|]. rewrite <- Hlen.
  destruct Hp as (Hcalls & samples & Hsent & Hn & His). split.
  - rewrite Hcalls. cbn. now rewrite app_nil_r.
  - exists samples. repeat split; auto.
Qed.

Lemma collectBatch_plain c batch w :
  batch <> [] -> (length batch <= batchSize)%nat ->
  forallb plain batch = true -> plain_cache w ->
  (exists r' results, GetMetricsResults (rep w) batch = (r', inr results)
     /\ answers batch results
     /\ Forall (fun r => types.Values r <> []) results) ->
  exists w', collectBatch c batch w = Done tt w'
             /\ plain_cache w' /\ produced w w' (length batch) [batch].
Proof.
  intros Hne Hsize Hplain Hcache (r' & results & Hget & Hans & Hvals).
  apply (collectBatch_served c batch w r' results Hne Hget); auto.
  - now apply answers_length.
  - apply List.Forall_forall. intros r Hr.
    destruct (answers_position batch results r Hsize Hans Hr) as [i Hpos].
    pose proof (position_lt _ _ _ Hpos) as Hlt.
    destruct (lookup_lt_is_Some_2 batch i Hlt) as [m Hm].
    exists i, m. repeat split; auto.
    + rewrite forallb_forall in Hplain. apply Hplain.
      apply list_elem_of_In. eapply list_elem_of_lookup_2, Hm.
    + rewrite List.Forall_forall in Hvals. now apply Hvals.
Qed.

Lemma range_collectBatch_plain c bs : forall w,
  obliging ->
  Forall (fun b => b <> [] /\ (length b <= batchSize)%nat /\ forallb plain b = true) bs ->
  plain_cache w ->
  exists w', range bs (collectBatch c) w = Done tt w'
             /\ plain_cache w' /\ produced w w' (length (concat bs)) bs.
Proof.
  intros w Hrep. revert w. induction bs as [|b bs IH]; intros w Hall Hcache.
  - exists w. split; [reflexivity|]. split; [exact Hcache|apply produced_refl].
  - inversion Hall as [|? ? (Hne & Hsize & Hplain) Hrest]; subst.
    destruct (collectBatch_plain c b w Hne Hsize Hplain Hcache (Hrep _ _ Hne Hsize))
      as (w1 & Hrun & Hc1 & Hp1).
    destruct (IH w1 Hrest Hc1) as (w2 & Hrun2 & Hc2 & Hp2).
    exists w2. rewrite range_cons, Hrun. split; [exact Hrun2|]. split; [exact Hc2|].
    cbn [concat]. rewrite length_app.
    apply (produced_trans _ _ _ _ _ [b] bs Hp1 Hp2).
Qed.

(** C1, as amended: when the listing succeeds with plain metrics, the
    cache is plain and the reporter answers every batch by its contract
    with at least one value in each result, [Collect] returns having sent
    exactly one sample for each listed metric and nothing else, and leaves
    a plain cache.  The batches it fetched are consecutive pieces of the
    listing, in order, each with at least one and at most [batchSize]
    metrics, all but the last with exactly [batchSize]: two batches of 500
    and 67 metrics for 567 metrics, and no batch for an empty listing. *)
Theorem Collect_all_samples c w (r0 : R) metrics :
  ListMetrics (rep w) (namespace c) (metricName c) = (r0, inr metrics) ->
  obliging -> forallb plain metrics = true -> plain_cache w ->
  exists w' samples bs,
    Collect c w = Done tt w'
    /\ plain_cache w'
    /\ sent w' = sent w ++ samples
    /\ length samples = length metrics
    /\ forallb isSample samples = true
    /\ calls w' = calls w ++ bs
    /\ concat bs = metrics
    /\ Forall (fun b => (0 < length b <= batchSize)%nat) bs
    /\ (forall full b, bs = full ++ [b] -> Forall (fun b => length b = batchSize) full)
    /\ (length metrics = 567%nat -> map length bs = [500; 67]%nat)
    /\ (metrics = [] -> bs = []).
Proof.
  intros Hlist Hrep Hplain Hcache. rewrite Collect_batches, Hlist.
  assert (0 < batchSize)%nat as Hpos by (unfold batchSize; lia).
  destruct (range_collectBatch_plain c (batches batchSize metrics) (listed w r0) Hrep)
    as (w' & Hrun & Hcache' & Hcalls & samples & Hsent & Hn & His).
  - pose proof (batches_lengths batchSize metrics Hpos) as Hlens.
    pose proof (concat_batches batchSize metrics Hpos) as Hcat.
    rewrite <- Hcat in Hplain. clear Hcat.
    induction Hlens as [|b bs Hb Hbs IH]; [constructor|].
    cbn [concat] in Hplain. rewrite forallb_app in Hplain.
    apply andb_prop in Hplain as [Hp1 Hp2]. constructor; [|now apply IH].
    repeat split; [|lia|exact Hp1]. intros ->. cbn in Hb. lia.
  - exact Hcache.
  - exists w', samples, (batches batchSize metrics).
    rewrite concat_batches in Hn by exact Hpos.
    split; [exact Hrun|]. split; [exact Hcache'|].
    split; [exact Hsent|]. split; [exact Hn|]. split; [exact His|].
    split; [exact Hcalls|]. split; [now apply concat_batches|].
    split; [now apply batches_lengths|].
    split; [intros full b; now apply batches_full_but_last|].
    split; [apply batches_567|]. now intros ->.
Qed.

(** ** What every run keeps *)

Section invariant.

Variable c : collector.
Variable Q : @World R -> Prop.
Variable P : types.Metric -> prometheus.Metric -> Prop.

Hypothesis Q_frame : forall w w',
  descMap w' = descMap w -> nextAddr w' = nextAddr w -> Q w -> Q w'.

Hypothesis Q_collectMetric : forall m v, keeps Q P [m] (collectMetric c m v).

Lemma keeps_stay {A} (S : list types.Metric) (prog : M A) w :
  Q w -> final (prog w) = w ->
  Q (final (prog w))
  /\ exists new, sent (final (prog w)) = sent w ++ new
       /\ Forall (fun s => isSample s = true -> exists m, m ∈ S /\ P m s) new.
Proof.
  intros HQ ->. split; [exact HQ|]. exists []. now rewrite app_nil_r.
Qed.

Lemma keeps_mono {A} (S S' : list types.Metric) (prog : M A) :
  (forall m, m ∈ S -> m ∈ S') -> keeps Q P S prog -> keeps Q P S' prog.
Proof.
  intros Hsub Hprog w HQ. destruct (Hprog w HQ) as (HQ' & new & Hsent & Hnew).
  split; [exact HQ'|]. exists new. split; [exact Hsent|].
  eapply Forall_impl; [exact Hnew|]. cbn. intros s Hs Hsample.
  destruct (Hs Hsample) as (m & Hm & HP). eauto.
Qed.

Lemma keeps_body batch r : keeps Q P batch (collectBatch_body c batch r).
Proof.
  intros w HQ. destruct (position batch r) as [i|] eqn:Hpos.
  - pose proof (position_lt batch r i Hpos) as Hlt.
    destruct (lookup_lt_is_Some_2 batch i Hlt) as [m Hm].
    rewrite (collectBatch_body_resolved c batch r w i m Hpos Hm).
    destruct (dimensions (types.Dimensions m)); [|now apply keeps_stay].
    destruct (types.Values r) as [|v vs]; [now apply keeps_stay|].
    apply (keeps_mono [m]); [|apply Q_collectMetric|exact HQ].
    intros m' Hm'. apply list_elem_of_singleton in Hm' as ->.
    eapply list_elem_of_lookup_2, Hm.
  - destruct (collectBatch_body_unresolved c batch r w Hpos) as [p Hp].
    rewrite Hp. now apply keeps_stay.
Qed.

Lemma keeps_range {A} (S : list types.Metric) (body : A -> M unit) l :
  (forall x, x ∈ l -> keeps Q P S (body x)) -> keeps Q P S (range l body).
Proof.
  induction l as [|x l IH]; intros Hbody w HQ; [now apply keeps_stay|].
  rewrite range_cons.
  destruct (Hbody x (list_elem_of_here x l) w HQ) as (HQ1 & new1 & Hsent1 & Hnew1).
  destruct (body x w) as [[] w1|p w1]; cbn [final] in *.
  - destruct (IH (fun y Hy => Hbody y (list_elem_of_further y x l Hy)) w1 HQ1)
      as (HQ2 & new2 & Hsent2 & Hnew2).
    split; [exact HQ2|]. exists (new1 ++ new2). rewrite Hsent2, Hsent1, <- app_assoc.
    split; [reflexivity|]. now apply Forall_app.
  - split; [exact HQ1|]. exists new1. now split.
Qed.

Lemma keeps_collectBatch batch : keeps Q P batch (collectBatch c batch).
Proof.
  intros w HQ. destruct batch as [|m0 batch]; [now apply keeps_stay|].
  destruct (GetMetricsResults (rep w) (m0 :: batch)) as [r' res] eqn:Hget.
  rewrite (collectBatch_eq c (m0 :: batch) w r' res) by (discriminate || exact Hget).
  assert (Q (fetched w r' (m0 :: batch))) as HQ1 by (now apply (Q_frame w)).
  destruct res as [e|results].
  - cbn [final]. split; [now apply (Q_frame w)|].
    eexists [_]. split; [reflexivity|]. constructor; [discriminate|constructor].
  - destruct (length results =? _)%nat.
    + change (sent w) with (sent (fetched w r' (m0 :: batch))).
      apply (keeps_range (m0 :: batch) (collectBatch_body c (m0 :: batch)) results);
        [intros; apply keeps_body|exact HQ1].
    + cbn [final]. split; [exact HQ1|]. exists []. now rewrite app_nil_r.
Qed.

Lemma keeps_Collect w :
  Q w ->
  Q (final (Collect c w))
  /\ exists new, sent (final (Collect c w)) = sent w ++ new
       /\ Forall (fun s => isSample s = true -> exists m, lists c w m /\ P m s) new.
Proof.
  intros HQ. rewrite Collect_batches. unfold lists.
  destruct (ListMetrics (rep w) (namespace c) (metricName c)) as [r' [e|metrics]].
  - cbn [final]. split; [now apply (Q_frame w)|].
    eexists [_]. split; [reflexivity|]. constructor; [discriminate|constructor].
  - assert (Q (listed w r')) as HQ1 by (now apply (Q_frame w)).
    change (sent w) with (sent (listed w r')).
    destruct (keeps_range metrics (collectBatch c) (batches batchSize metrics)) with
      (w := listed w r') as (HQ2 & new & Hsent & Hnew); [|exact HQ1|].
    + intros batch Hin. apply (keeps_mono batch); [|apply keeps_collectBatch].
      intros m Hm. rewrite <- (concat_batches batchSize metrics) by (unfold batchSize; lia).
      apply list_elem_of_In, in_concat. exists batch.
      split; now apply list_elem_of_In.
    + split; [exact HQ2|]. exists new. split; [exact Hsent|].
      eapply Forall_impl; [exact Hnew|]. cbn. intros s Hs Hsample.
      destruct (Hs Hsample) as (m & Hm & HP). exists m. eauto.
Qed.

End invariant.

(** ** The replacement of runes *)

Lemma lor_ge_r (x y : Z) : 0 <= x -> y <= Z.lor x y.
Proof.
  intros Hx. pose proof (Z.sub_lor_l_same_r x y) as Hsub.
  pose proof (proj2 (Z.land_nonneg x (Z.lnot y)) (or_introl Hx)). lia.
Qed.

Lemma lor_ge_l (x y : Z) : 0 <= y -> x <= Z.lor x y.
Proof. intros Hy. rewrite Z.lor_comm. now apply lor_ge_r. Qed.

Lemma byte_val_range (ch : ascii) : 0 <= byte_val ch < 256.
Proof.
  unfold byte_val. pose proof (N_ascii_bounded ch). lia.
Qed.

Lemma land_low (x : Z) (n : Z) : 0 <= n -> Z.land x (Z.ones n) = x mod 2 ^ n.
Proof. intros. now apply Z.land_ones. Qed.

Lemma regexp_matches_high (r : rune) : 128 <= r -> prometheusMetricNameRegexp r = true.
Proof.
  intros Hr. unfold prometheusMetricNameRegexp, within.
  repeat match goal with
         | |- context [?a <=? ?b] => destruct (Z.leb_spec a b); try lia
         | |- context [?a =? ?b] => destruct (Z.eqb_spec a b); try lia
         end; reflexivity.
Qed.

Ltac nonneg :=
  repeat first [ apply Z.lor_nonneg; split
               | apply Z.shiftl_nonneg
               | apply Z.land_nonneg; left; lia ].

Ltac lower :=
  lazymatch goal with
  | |- _ <= Z.lor ?a ?b =>
    first [ etransitivity; [|apply lor_ge_l; nonneg]; lower
          | etransitivity; [|apply lor_ge_r; nonneg]; lower ]
  | |- _ =>
    rewrite ?Z.shiftl_mul_pow2 by lia; rewrite ?land_low by lia;
    Z.div_mod_to_equations; lia
  end.

(** A rune that is encoded in more than one byte, or stands for an encoding
    error, is not below [RuneSelf]. *)
Lemma DecodeRuneInString_high (c0 : ascii) (t : string) :
  utf8.RuneSelf <= byte_val c0 ->
  128 <= fst (utf8.DecodeRuneInString (String c0 t)).
Proof.
  intros Hc0. unfold utf8.DecodeRuneInString.
  destruct (Z.ltb_spec (byte_val c0) utf8.RuneSelf) as [Hlt|_]; [lia|].
  pose proof (byte_val_range c0) as Hr0.
  change 31 with (Z.ones 5). change 15 with (Z.ones 4). change 7 with (Z.ones 3).
  change 63 with (Z.ones 6).
  destruct (utf8.first (byte_val c0)) as [[sz [lo hi]]|] eqn:Hfirst;
    [|cbn; unfold utf8.RuneError; lia].
  destruct (String.length (String c0 t) <? sz)%nat; [cbn; unfold utf8.RuneError; lia|].
  destruct t as [|c1 t1]; [cbn; unfold utf8.RuneError; lia|].
  pose proof (byte_val_range c1) as Hr1.
  destruct (within lo hi (byte_val c1)) eqn:Hin1; cbn [negb];
    [|cbn; unfold utf8.RuneError; lia].
  unfold utf8.first, within in Hfirst, Hin1.
  apply andb_prop in Hin1 as [Hlo Hhi]. apply Z.leb_le in Hlo, Hhi.
  repeat match type of Hfirst with
         | context [?a <=? ?b] => destruct (Z.leb_spec a b); cbn [andb] in Hfirst
         | context [?a =? ?b] => destruct (Z.eqb_spec a b)
         end; try discriminate; injection Hfirst as <- <- <-; cbn [Nat.leb fst];
  try (destruct t1 as [|c2 t2]; [cbn; unfold utf8.RuneError; lia|];
       destruct (within utf8.locb utf8.hicb (byte_val c2)); cbn [negb fst];
       [|unfold utf8.RuneError; lia]);
  try (destruct t2 as [|c3 t3]; [cbn; unfold utf8.RuneError; lia|];
       destruct (within utf8.locb utf8.hicb (byte_val c3)); cbn [negb fst];
       [|unfold utf8.RuneError; lia]);
  unfold utf8.locb, utf8.hicb in *; lower.
Qed.


Lemma DecodeRuneInString_not_matched (c0 : ascii) (t : string) :
  prometheusMetricNameRegexp (fst (utf8.DecodeRuneInString (String c0 t))) = false ->
  utf8.DecodeRuneInString (String c0 t) = (byte_val c0, 1%nat).
Proof.
  intros Hre. destruct (Z.ltb_spec (byte_val c0) utf8.RuneSelf) as [Hlt|Hge].
  - unfold utf8.DecodeRuneInString.
    now replace (byte_val c0 <? utf8.RuneSelf) with true by (symmetry; now apply Z.ltb_lt).
  - rewrite regexp_matches_high in Hre by (now apply DecodeRuneInString_high).
    discriminate.
Qed.

Lemma replace_from_copy (class : rune -> bool) repl (copy : bool) s :
  regexp.replace_from class repl 0 copy s = regexp.replace_from class repl 0 true s.
Proof. now destruct s. Qed.

Lemma replace_from_in_class (s : string) : forall skip,
  every inClass (regexp.replace_from prometheusMetricNameRegexp "_" skip false s) = true
  /\ every inClass (regexp.replace_from prometheusMetricNameRegexp "_" 0 true s) = true.
Proof.
  induction s as [|c0 t IH]; intros skip; [now split|].
  assert (every inClass (regexp.replace_from prometheusMetricNameRegexp "_" 0 true
                                             (String c0 t)) = true) as Hcopy.
  { cbn [regexp.replace_from].
    destruct (utf8.DecodeRuneInString (String c0 t)) as [r size] eqn:Hdec.
    destruct (prometheusMetricNameRegexp r) eqn:Hre.
    - change ("_" ++ ?x)%string with (String "_" x). cbn [every].
      now rewrite (proj1 (IH (size - 1)%nat)).
    - pose proof (DecodeRuneInString_not_matched c0 t) as Hdec'.
      rewrite Hdec in Hdec'. cbn [fst] in Hdec'. injection (Hdec' Hre) as -> ->.
      cbn [every]. unfold inClass at 1. rewrite Hre. cbn [negb andb Nat.sub].
      apply IH. exact 0%nat. }
  split; [|exact Hcopy].
  destruct skip as [|k].
  - now rewrite replace_from_copy.
  - cbn [regexp.replace_from]. apply IH.
Qed.

(** What [ReplaceAllString] returns for [prometheusMetricNameRegexp] and
    ["_"] has all its bytes in [[a-zA-Z0-9_:]]. *)
Lemma ReplaceAllString_in_class (s : string) :
  every inClass (regexp.ReplaceAllString prometheusMetricNameRegexp s "_") = true.
Proof. apply (replace_from_in_class s 0%nat). Qed.

(** On ASCII, runes are bytes: each byte outside the class becomes ["_"]. *)
Lemma ReplaceAllString_ascii (s : string) :
  every (fun ch => byte_val ch <? utf8.RuneSelf) s = true ->
  regexp.ReplaceAllString prometheusMetricNameRegexp s "_"
  = bytewise (fun ch => if inClass ch then ch else "_"%char) s.
Proof.
  unfold regexp.ReplaceAllString. induction s as [|c0 t IH]; [reflexivity|].
  cbn [every]. intros Hs. apply andb_prop in Hs as [Hc0 Ht].
  cbn [regexp.replace_from bytewise]. unfold utf8.DecodeRuneInString. rewrite Hc0.
  unfold inClass. destruct (prometheusMetricNameRegexp (byte_val c0)); cbn [negb Nat.sub].
  - change ("_" ++ ?x)%string with (String "_" x). rewrite replace_from_copy.
    now rewrite IH.
  - now rewrite IH.
Qed.


(** ** Descriptors *)

Lemma reads_or_nil m :
  (exists ns mn lns lvs, reads m ns mn lns lvs)
  \/ (types.Namespace m = None \/ types.MetricName m = None
      \/ dimensions (types.Dimensions m) = None).
Proof.
  unfold reads. destruct (types.Namespace m) as [ns|]; [|auto].
  destruct (types.MetricName m) as [mn|]; [|auto].
  destruct (dimensions (types.Dimensions m)) as [[lns lvs]|]; [|auto].
  left. exists ns, mn, lns, lvs. auto.
Qed.

Lemma looked_up_sent w ns mn lns : sent (looked_up w ns mn lns) = sent w.
Proof. unfold looked_up. now destruct (descMap w !! descKey lns). Qed.

Lemma looked_up_sound w ns mn lns : sound_cache w -> sound_cache (looked_up w ns mn lns).
Proof.
  intros Hsound. unfold looked_up.
  destruct (descMap w !! descKey lns) as [d|] eqn:Hfound; [exact Hsound|].
  intros key d. cbn. intros Hlook.
  apply lookup_insert_Some in Hlook as [[<- <-]|[_ Hlook]]; [|now apply Hsound].
  now exists (nextAddr w), ns, mn, lns.
Qed.

(** The shape of a proof that [collectMetric] keeps [Q] and sends [P]:
    it is enough to look at the metric sent once the descriptor is there. *)
Lemma keeps_collectMetric (Q : @World R -> Prop)
      (P : types.Metric -> prometheus.Metric -> Prop) c m v :
  (forall w w', descMap w' = descMap w -> nextAddr w' = nextAddr w -> Q w -> Q w') ->
  (forall w ns mn lns, Q w -> Q (looked_up w ns mn lns)) ->
  (forall w ns mn lns lvs, Q w -> reads m ns mn lns lvs ->
     accepts (descriptor w ns mn lns) lvs = true ->
     P m (prometheus.constMetric (descriptor w ns mn lns) v lvs)) ->
  keeps Q P [m] (collectMetric c m v).
Proof.
  intros Hframe Hlook HP w HQ.
  destruct (reads_or_nil m) as [(ns & mn & lns & lvs & Hreads)|Hnil].
  - rewrite (collectMetric_run c m v w ns mn lns lvs Hreads). cbv zeta.
    destruct (prometheus.NewConstMetric _ v lvs) as [e|s] eqn:Hnew; cbn [final].
    + split; [now apply Hlook|]. exists []. now rewrite app_nil_r, looked_up_sent.
    + apply NewConstMetric_inr in Hnew as [-> Hacc].
      split; [apply (Hframe (looked_up w ns mn lns)); auto|].
      eexists [_]. cbn [emit sent]. rewrite looked_up_sent. split; [reflexivity|].
      constructor; [|constructor]. intros _. exists m. split; [apply list_elem_of_here|].
      now apply HP.
  - rewrite (collectMetric_nil c m v w Hnil). cbn [final].
    split; [exact HQ|]. exists []. now rewrite app_nil_r.
Qed.

Lemma accepts_length d lvs :
  accepts d lvs = true -> length lvs = length (prometheus.variableLabels d).
Proof.
  unfold accepts. intros Hacc. apply andb_prop in Hacc as [Hacc _].
  apply andb_prop in Hacc as [_ Hlen]. now apply Nat.eqb_eq.
Qed.

Lemma descriptor_key w ns mn lns :
  sound_cache w ->
  descKey (prometheus.variableLabels (descriptor w ns mn lns)) = descKey lns.
Proof.
  intros Hsound. unfold descriptor.
  destruct (descMap w !! descKey lns) as [d|] eqn:Hfound; [|reflexivity].
  destruct (Hsound _ _ Hfound) as (a & ns0 & mn0 & lns0 & -> & Hkey). exact Hkey.
Qed.

Lemma accepts_checked w ns mn lns lvs :
  sound_cache w -> accepts (descriptor w ns mn lns) lvs = true ->
  let d := descriptor w ns mn lns in
  prometheus.checkDesc (prometheus.fqName d) (prometheus.help d)
                       (prometheus.variableLabels d) = None.
Proof.
  intros Hsound Hacc d.
  assert (exists a ns0 mn0 lns0, d = created a ns0 mn0 lns0) as (a & ns0 & mn0 & lns0 & Hd).
  { unfold d, descriptor. destruct (descMap w !! descKey lns) as [d0|] eqn:Hfound.
    - destruct (Hsound _ _ Hfound) as (a & ns0 & mn0 & lns0 & -> & _). eauto.
    - eauto. }
  unfold accepts in Hacc. fold d in Hacc. rewrite Hd in *. cbn in *.
  now destruct (prometheus.checkDesc _ _ lns0).
Qed.

Lemma collectMetric_aligned c m v :
  keeps (R := R) sound_cache aligned [m] (collectMetric c m v).
Proof.
  apply keeps_collectMetric.
  - intros w w' Hmap _ Hsound key d. rewrite Hmap. apply Hsound.
  - intros w ns mn lns. apply looked_up_sound.
  - intros w ns mn lns lvs Hsound Hreads Hacc. cbn.
    pose proof (accepts_length _ _ Hacc) as Hlen. split; [exact Hlen|].
    split; [now apply (accepts_checked w ns mn lns lvs)|].
    exists ns, mn, lns. split; [exact Hreads|].
    pose proof (descriptor_key w ns mn lns Hsound) as Hkey. split; [exact Hkey|].
    intros Hspaceless. apply Join_inj_length; auto.
    rewrite <- Hlen. symmetry. eapply dimensions_length, Hreads.
Qed.

(** X12: whatever the checks of [NewDesc], from a sound cache (the one of
    a new collector is sound, and [Collect] leaves it sound), every sample
    [Collect] sends has as many label values as its descriptor has label
    names, and the descriptor passed the checks of [NewDesc]; the values
    are those of the dimensions of a listed metric, in order, and the
    descriptor's names have the key of that metric's dimension names: they
    are these names, in order, whenever none of the descriptor's names
    contains a space. *)
Theorem Collect_samples_aligned c w :
  sound_cache w ->
  sound_cache (final (Collect c w))
  /\ exists new, sent (final (Collect c w)) = sent w ++ new
       /\ forall d v lvs, prometheus.constMetric d v lvs ∈ new ->
            length lvs = length (prometheus.variableLabels d)
            /\ prometheus.checkDesc (prometheus.fqName d) (prometheus.help d)
                                    (prometheus.variableLabels d) = None
            /\ exists m ns mn lns,
                 lists c w m /\ reads m ns mn lns lvs
                 /\ descKey (prometheus.variableLabels d) = descKey lns
                 /\ (forallb spaceless (prometheus.variableLabels d) = true ->
                     prometheus.variableLabels d = lns).
Proof.
  intros Hsound.
  destruct (keeps_Collect c sound_cache aligned) with (w := w)
    as (Hsound' & new & Hsent & Hnew).
  - intros w1 w2 Hmap _ Hs key d. rewrite Hmap. apply Hs.
  - intros m v. apply collectMetric_aligned.
  - exact Hsound.
  - split; [exact Hsound'|]. exists new. split; [exact Hsent|].
    intros d v lvs Hin. rewrite List.Forall_forall in Hnew.
    apply list_elem_of_In in Hin.
    destruct (Hnew _ Hin eq_refl)
      as (m & Hm & Hlen & Hchecked & ns & mn & lns & Hreads & Hkey & Hsp).
    split; [exact Hlen|]. split; [exact Hchecked|]. exists m, ns, mn, lns. auto.
Qed.

Lemma collectMetric_reuses c cached m v :
  keeps (R := R) (fun w => cached ⊆ descMap w) (reuses cached) [m] (collectMetric c m v).
Proof.
  apply keeps_collectMetric.
  - intros w w' Hmap _ Hsub. now rewrite Hmap.
  - intros w ns mn lns Hsub. unfold looked_up.
    destruct (descMap w !! descKey lns) eqn:Hfound; [exact Hsub|].
    cbn. etrans; [exact Hsub|]. now apply insert_subseteq.
  - intros w ns mn lns lvs Hsub Hreads _. cbn. exists ns, mn, lns. split; [exact Hreads|].
    intros d0 Hd0. unfold descriptor.
    now rewrite (lookup_weaken _ _ _ _ Hd0 Hsub).
Qed.

(** X11: a descriptor is looked up and cached under the dimension names
    joined with single spaces.  A metric whose key is not in the cache has
    a descriptor created from its own namespace and name and cached under
    its key; a metric whose key is in the cache leaves cache and allocator
    alone and is sent under the cached descriptor, whatever its namespace
    and name.  [Collect] never changes an entry of the cache it starts
    from, for instance one left by an earlier [Collect], and sends every
    sample of a metric with the key of such an entry under that very
    descriptor. *)
Theorem descMap_keyed_by_joined_names c :
  (forall m v w ns mn lns lvs,
     reads m ns mn lns lvs -> descMap w !! descKey lns = None ->
     let d := created (nextAddr w) ns mn lns in
     descMap (final (collectMetric c m v w)) = <[descKey lns := d]> (descMap w)
     /\ (accepts d lvs = true ->
         collectMetric c m v w =
           Done tt (emit (cache w (descKey lns) d) (prometheus.constMetric d v lvs))))
  /\ (forall m v w ns mn lns lvs d,
        reads m ns mn lns lvs -> descMap w !! descKey lns = Some d ->
        descMap (final (collectMetric c m v w)) = descMap w
        /\ nextAddr (final (collectMetric c m v w)) = nextAddr w
        /\ (accepts d lvs = true ->
            collectMetric c m v w = Done tt (emit w (prometheus.constMetric d v lvs))))
  /\ (forall w key d0,
        descMap w !! key = Some d0 ->
        descMap (final (Collect c w)) !! key = Some d0
        /\ exists new, sent (final (Collect c w)) = sent w ++ new
             /\ forall d v lvs, prometheus.constMetric d v lvs ∈ new ->
                  exists m ns mn lns,
                    lists c w m /\ reads m ns mn lns lvs
                    /\ (descKey lns = key -> d = d0)).
Proof.
  split; [|split].
  - intros m v w ns mn lns lvs Hreads Hmiss d.
    rewrite (collectMetric_eq c m v w ns mn lns lvs Hreads), Hmiss. cbv zeta. fold d.
    split.
    + now destruct (prometheus.NewConstMetric d v lvs).
    + intros Hacc. now rewrite (NewConstMetric_accepts d v lvs Hacc).
  - intros m v w ns mn lns lvs d Hreads Hhit.
    rewrite (collectMetric_eq c m v w ns mn lns lvs Hreads), Hhit.
    split; [|split].
    + now destruct (prometheus.NewConstMetric d v lvs).
    + now destruct (prometheus.NewConstMetric d v lvs).
    + intros Hacc. now rewrite (NewConstMetric_accepts d v lvs Hacc).
  - intros w key d0 Hd0.
    destruct (keeps_Collect c (fun w' => descMap w ⊆ descMap w') (reuses (descMap w)))
      with (w := w) as (Hsub & new & Hsent & Hnew).
    + intros w1 w2 Hmap _ Hs. now rewrite Hmap.
    + intros m v. apply collectMetric_reuses.
    + reflexivity.
    + split; [exact (lookup_weaken _ _ _ _ Hd0 Hsub)|].
      exists new. split; [exact Hsent|].
      intros d v lvs Hin. rewrite List.Forall_forall in Hnew.
      apply list_elem_of_In in Hin.
      destruct (Hnew _ Hin eq_refl) as (m & Hm & ns & mn & lns & Hreads & Hreuse).
      exists m, ns, mn, lns. split; [exact Hm|]. split; [exact Hreads|].
      intros <-. now apply Hreuse.
Qed.

(** C7, as amended: a sample for [m] is sent under [descriptor w ...]: when
    [m]'s key is not cached, the descriptor's name is the namespace and the
    metric name of [m], each with the runes outside [[a-zA-Z0-9_:]]
    replaced by ["_"] and then put in snake case, joined by ["_"], and its
    label names are [m]'s dimension names in order; when the key is cached,
    it is the cached descriptor, whose name and label names were made in
    this way from the namespace, name and dimension names of the metric it
    was created for.  The replacement leaves bytes of the class only, and on
    an ASCII string it is the replacement of each byte outside the class. *)
Theorem descriptor_naming c m v w ns mn lns lvs :
  sound_cache w -> reads m ns mn lns lvs ->
  let d := descriptor w ns mn lns in
  sound_cache (final (collectMetric c m v w))
  /\ (forall w', collectMetric c m v w = Done tt w' ->
        sent w' = sent w ++ [prometheus.constMetric d v lvs])
  /\ (accepts d lvs = true ->
      collectMetric c m v w =
        Done tt (emit (looked_up w ns mn lns) (prometheus.constMetric d v lvs)))
  /\ (descMap w !! descKey lns = None ->
      prometheus.fqName d =
        (strcase.SnakeCase (regexp.ReplaceAllString prometheusMetricNameRegexp ns "_")
         ++ "_" ++
         strcase.SnakeCase (regexp.ReplaceAllString prometheusMetricNameRegexp mn "_"))%string
      /\ prometheus.variableLabels d = lns)
  /\ (forall d0, descMap w !! descKey lns = Some d0 ->
        d = d0
        /\ exists ns0 mn0 lns0,
             prometheus.fqName d =
               (strcase.SnakeCase (regexp.ReplaceAllString prometheusMetricNameRegexp ns0 "_")
                ++ "_" ++
                strcase.SnakeCase (regexp.ReplaceAllString prometheusMetricNameRegexp mn0 "_"))%string
             /\ prometheus.variableLabels d = lns0
             /\ descKey lns0 = descKey lns)
  /\ (forall s,
        every inClass (regexp.ReplaceAllString prometheusMetricNameRegexp s "_") = true
        /\ (every (fun ch => byte_val ch <? utf8.RuneSelf) s = true ->
            regexp.ReplaceAllString prometheusMetricNameRegexp s "_"
            = bytewise (fun ch => if inClass ch then ch else "_"%char) s)).
Proof.
  intros Hsound Hreads d.
  rewrite (collectMetric_run c m v w ns mn lns lvs Hreads). cbv zeta. fold d.
  split; [|split; [|split; [|split; [|split]]]];
    [| | | | |intros s; split;
              [apply ReplaceAllString_in_class|apply ReplaceAllString_ascii]].
  - destruct (prometheus.NewConstMetric d v lvs); cbn [final].
    + now apply looked_up_sound.
    + intros key d1. cbn. now apply looked_up_sound.
  - intros w'. destruct (prometheus.NewConstMetric d v lvs) as [|s] eqn:Hnew; [discriminate|].
    apply NewConstMetric_inr in Hnew as [-> _]. intros [= <-]. cbn.
    now rewrite looked_up_sent.
  - intros Hacc. now rewrite (NewConstMetric_accepts d v lvs Hacc).
  - intros Hmiss. unfold d, descriptor. rewrite Hmiss. now split.
  - intros d0 Hhit. unfold d, descriptor. rewrite Hhit. split; [reflexivity|].
    destruct (Hsound _ _ Hhit) as (a & ns0 & mn0 & lns0 & -> & Hkey).
    now exists ns0, mn0, lns0.
Qed.

Lemma newCollector_sound (r : R) ns mn : sound_cache (newCollector r ns mn).2.
Proof. intros key d. cbn. now rewrite lookup_empty. Qed.

Lemma newCollector_plain (r : R) ns mn : plain_cache (newCollector r ns mn).2.
Proof. intros key d. cbn. now rewrite lookup_empty. Qed.


(** C2: when [ListMetrics] fails, [Collect] sends exactly one metric, the
  invalid metric carrying the failure, and returns: no batch is fetched
  ([calls] is unchanged), no sample is sent, and the descriptor cache is
  untouched. *)
Theorem Collect_ListMetrics_error c w (r' : R) e :
ListMetrics (rep w) (namespace c) (metricName c) = (r', inl e) ->
Collect c w =
  Done tt {| rep := r'; nextAddr := nextAddr w; descMap := descMap w;
             sent := sent w ++ [prometheus.invalidMetric (errDesc c) e];
             calls := calls w |}.
Proof.
intros Hlist.
unfold Collect, mbind, M_bind, reporter_ListMetrics.
rewrite Hlist. reflexivity.
Qed.

(** ** [sprintDims] *)

Lemma append_assoc (a b d : string) : ((a ++ b) ++ d = a ++ (b ++ d))%string.
Proof.
  induction a as [|ch a IH]; [reflexivity|].
  change (String ch ((a ++ b) ++ d) = String ch (a ++ b ++ d))%string. now rewrite IH.
Qed.

Lemma append_empty_r (a : string) : (a ++ "")%string = a.
Proof.
  induction a as [|ch a IH]; [reflexivity|].
  change (String ch (a ++ "") = String ch a)%string. now rewrite IH.
Qed.

Lemma sprintDims_from_printed ds : forall out w,
  sprintDims_from out ds w =
    match dimensions ds with
    | Some (lns, lvs) => Done (out ++ printed lns lvs)%string w
    | None => Panicked NilDereference w
    end.
Proof.
  induction ds as [|d ds IH]; intros out w.
  - cbn. unfold printed. cbn. now rewrite append_empty_r.
  - cbn [sprintDims_from dimensions]. unmonad.
    destruct (types.Name d) as [n|]; [|reflexivity].
    destruct (types.Value d) as [v|]; [|reflexivity].
    rewrite IH. destruct (dimensions ds) as [[lns lvs]|]; [|reflexivity].
    unfold printed. cbn [zip_with appended]. f_equal.
    now rewrite !append_assoc.
Qed.

(** X1: [sprintDims] prints, for each dimension in order, its name, ["="],
    its value and [","], and nothing else; it panics on the first nil
    pointer among them, and reads or writes nothing of the collector. *)
Theorem sprintDims_printed ds w :
  sprintDims ds w =
    match dimensions ds with
    | Some (lns, lvs) =>
      Done (appended (zip_with (fun n v => n ++ "=" ++ v ++ ",")%string lns lvs)) w
    | None => Panicked NilDereference w
    end.
Proof.
  unfold sprintDims. rewrite sprintDims_from_printed.
  now destruct (dimensions ds) as [[lns lvs]|].
Qed.

(** ** Failures of [collectMetric] *)

(** X2: how [collectMetric] fails.  A nil pointer in the metric panics
    before anything is cached or sent.  Otherwise the descriptor, found or
    created, is in the cache whatever follows, and nothing is sent unless
    [NewConstMetric] accepts the label values: a descriptor with an error,
    a number of label values that is not that of the descriptor's label
    names, or a label value that is not UTF-8 panics with that error, the
    descriptor cached. *)
Theorem collectMetric_failures c m v w :
  ((types.Namespace m = None \/ types.MetricName m = None
    \/ dimensions (types.Dimensions m) = None) ->
   collectMetric c m v w = Panicked NilDereference w)
  /\ (forall ns mn lns lvs,
        reads m ns mn lns lvs ->
        let d := descriptor w ns mn lns in
        let w1 := looked_up w ns mn lns in
        descMap w1 !! descKey lns = Some d
        /\ sent w1 = sent w
        /\ (forall e, prometheus.err d = Some e ->
              collectMetric c m v w = Panicked (PanicError e) w1)
        /\ (prometheus.err d = None ->
            length lvs <> length (prometheus.variableLabels d) ->
            collectMetric c m v w =
              Panicked (PanicError (errInconsistentCardinality
                                      (length (prometheus.variableLabels d)) (length lvs)))
                       w1)
        /\ (forall x, prometheus.err d = None ->
              length lvs = length (prometheus.variableLabels d) ->
              List.find (fun l => negb (utf8.ValidString l)) lvs = Some x ->
              collectMetric c m v w = Panicked (PanicError (errLabelValueNotUTF8 x)) w1)
        /\ (forall w', collectMetric c m v w = Done tt w' -> accepts d lvs = true)).
Proof.
  split; [apply collectMetric_nil|].
  intros ns mn lns lvs Hreads d w1.
  rewrite (collectMetric_run c m v w ns mn lns lvs Hreads). cbv zeta. fold d w1.
  split; [|split; [apply looked_up_sent|split; [|split; [|split]]]].
  - unfold w1, d, looked_up, descriptor.
    destruct (descMap w !! descKey lns) as [d0|] eqn:Hfound; [exact Hfound|].
    cbn. apply lookup_insert_eq.
  - intros e He. unfold prometheus.NewConstMetric. now rewrite He.
  - intros Herr Hlen. unfold prometheus.NewConstMetric, prometheus.validateLabelValues.
    rewrite Herr. apply Nat.eqb_neq in Hlen. now rewrite Hlen.
  - intros x Herr Hlen Hfind.
    unfold prometheus.NewConstMetric, prometheus.validateLabelValues.
    now rewrite Herr, Hlen, Nat.eqb_refl, Hfind.
  - intros w'. destruct (prometheus.NewConstMetric d v lvs) as [|s] eqn:Hnew; [discriminate|].
    intros _. now apply NewConstMetric_inr in Hnew.
Qed.

(** ** The replacement, again *)

Lemma replace_from_length (class : rune -> bool) (s : string) : forall skip copy,
  (String.length (regexp.replace_from class "_" skip copy s) <= String.length s)%nat.
Proof.
  induction s as [|c0 t IH]; intros skip copy; [reflexivity|].
  cbn [regexp.replace_from String.length]. destruct skip as [|k].
  - destruct (utf8.DecodeRuneInString (String c0 t)) as [r size].
    destruct (class r).
    + change ("_" ++ ?x)%string with (String "_" x). cbn [String.length].
      specialize (IH (size - 1)%nat false). lia.
    + cbn [String.length]. specialize (IH (size - 1)%nat true). lia.
  - destruct copy; [cbn [String.length]|]; specialize (IH k); [specialize (IH true)|specialize (IH false)]; lia.
Qed.

Lemma inClass_ascii (ch : ascii) : inClass ch = true -> (byte_val ch <? utf8.RuneSelf) = true.
Proof.
  unfold inClass. intros Hin. apply Z.ltb_lt.
  destruct (Z.lt_ge_cases (byte_val ch) utf8.RuneSelf) as [Hlt|Hge]; [exact Hlt|].
  rewrite regexp_matches_high in Hin by exact Hge. discriminate.
Qed.

Lemma every_impl (P Q : ascii -> bool) (s : string) :
  (forall ch, P ch = true -> Q ch = true) -> every P s = true -> every Q s = true.
Proof.
  intros HPQ. induction s as [|ch s IH]; [reflexivity|]. cbn [every].
  intros Hs. apply andb_prop in Hs as [Hch Hs]. now rewrite (HPQ ch Hch), IH.
Qed.

Lemma bytewise_in_class (s : string) :
  every inClass s = true -> bytewise (fun ch => if inClass ch then ch else "_"%char) s = s.
Proof.
  induction s as [|ch s IH]; [reflexivity|]. cbn [every bytewise].
  intros Hs. apply andb_prop in Hs as [Hch Hs]. now rewrite Hch, IH.
Qed.

(** X3: replacing every rune outside [[a-zA-Z0-9_:]] by ["_"], the first
    step of a descriptor's name, is idempotent, never makes a name longer,
    and leaves a name of the class as it is. *)
Theorem ReplaceAllString_fixed_point (s : string) :
  let t := regexp.ReplaceAllString prometheusMetricNameRegexp s "_" in
  regexp.ReplaceAllString prometheusMetricNameRegexp t "_" = t
  /\ (String.length t <= String.length s)%nat
  /\ (every inClass s = true -> t = s).
Proof.
  cbv zeta. pose proof (ReplaceAllString_in_class s) as Hclass. split; [|split].
  - rewrite ReplaceAllString_ascii by (eapply every_impl; [apply inClass_ascii|exact Hclass]).
    now apply bytewise_in_class.
  - apply replace_from_length.
  - intros Hs.
    rewrite ReplaceAllString_ascii by (eapply every_impl; [apply inClass_ascii|exact Hs]).
    now apply bytewise_in_class.
Qed.

(** ** What is sent and what is fetched *)

Lemma collectMetric_trace c m v w :
  let w' := final (collectMetric c m v w) in
  rep w' = rep w /\ calls w' = calls w
  /\ exists new, sent w' = sent w ++ new /\ forallb isSample new = true
       /\ (length new <= 1)%nat.
Proof.
  destruct (reads_or_nil m) as [(ns & mn & lns & lvs & Hreads)|Hnil].
  - rewrite (collectMetric_run c m v w ns mn lns lvs Hreads). cbv zeta.
    assert (rep (looked_up w ns mn lns) = rep w
            /\ calls (looked_up w ns mn lns) = calls w) as [Hrep Hcalls].
    { unfold looked_up. now destruct (descMap w !! descKey lns). }
    destruct (prometheus.NewConstMetric _ v lvs) as [e|s] eqn:Hnew; cbn [final].
    + split; [exact Hrep|]. split; [exact Hcalls|]. exists [].
      rewrite app_nil_r, looked_up_sent. cbn. auto.
    + apply NewConstMetric_inr in Hnew as [-> _]. cbn [emit rep calls sent].
      split; [exact Hrep|]. split; [exact Hcalls|]. eexists [_].
      rewrite looked_up_sent. cbn. auto.
  - rewrite (collectMetric_nil c m v w Hnil). cbn [final].
    split; [reflexivity|]. split; [reflexivity|]. exists []. rewrite app_nil_r.
    cbn. auto.
Qed.

Lemma collectBatch_body_trace c batch r w :
  let w' := final (collectBatch_body c batch r w) in
  rep w' = rep w /\ calls w' = calls w
  /\ exists new, sent w' = sent w ++ new /\ forallb isSample new = true
       /\ (length new <= 1)%nat.
Proof.
  assert (forall o : outcome unit, final o = w ->
            rep (final o) = rep w /\ calls (final o) = calls w
            /\ exists new, sent (final o) = sent w ++ new /\ forallb isSample new = true
                 /\ (length new <= 1)%nat) as Hstay.
  { intros o ->. split; [reflexivity|]. split; [reflexivity|]. exists [].
    rewrite app_nil_r. cbn. auto. }
  cbv zeta. destruct (position batch r) as [i|] eqn:Hpos.
  - pose proof (position_lt batch r i Hpos) as Hlt.
    destruct (lookup_lt_is_Some_2 batch i Hlt) as [m Hm].
    rewrite (collectBatch_body_resolved c batch r w i m Hpos Hm).
    destruct (dimensions (types.Dimensions m)); [|now apply Hstay].
    destruct (types.Values r) as [|v vs]; [now apply Hstay|].
    apply collectMetric_trace.
  - destruct (collectBatch_body_unresolved c batch r w Hpos) as [p ->]. now apply Hstay.
Qed.

Lemma range_body_trace c batch results : forall w,
  let w' := final (range results (collectBatch_body c batch) w) in
  rep w' = rep w /\ calls w' = calls w
  /\ exists new, sent w' = sent w ++ new /\ forallb isSample new = true
       /\ (length new <= length results)%nat.
Proof.
  induction results as [|r results IH]; intros w; cbv zeta.
  - cbn. split; [reflexivity|]. split; [reflexivity|]. exists []. now rewrite app_nil_r.
  - rewrite range_cons.
    destruct (collectBatch_body_trace c batch r w) as (Hrep & Hcalls & new & Hsent & Hs & Hn).
    destruct (collectBatch_body c batch r w) as [[] w1|p w1]; cbn [final] in *.
    + destruct (IH w1) as (Hrep2 & Hcalls2 & new2 & Hsent2 & Hs2 & Hn2).
      split; [congruence|]. split; [congruence|]. exists (new ++ new2).
      rewrite Hsent2, Hsent, <- app_assoc, forallb_app, Hs, Hs2, length_app.
      repeat split; auto. cbn [length]. lia.
    + split; [exact Hrep|]. split; [exact Hcalls|]. exists new.
      repeat split; auto. cbn [length]. lia.
Qed.

Lemma invalids_app (l1 l2 : list prometheus.Metric) :
  invalids (l1 ++ l2) = invalids l1 ++ invalids l2.
Proof. unfold invalids. apply List.filter_app. Qed.

Lemma invalids_samples (l : list prometheus.Metric) :
  forallb isSample l = true -> invalids l = [].
Proof.
  unfold invalids. induction l as [|s l IH]; [reflexivity|]. cbn.
  intros Hl. apply andb_prop in Hl as [Hs Hl]. rewrite Hs. cbn. now apply IH.
Qed.

Lemma reported_samples c (l : list prometheus.Metric) :
  forallb isSample l = true -> Forall (reported c) l.
Proof.
  intros Hl. apply List.Forall_forall. intros s Hs.
  rewrite forallb_forall in Hl. specialize (Hl s Hs). now destruct s.
Qed.

(** What one non-empty batch leaves behind: one request, and either samples,
    at most one for each result, or one invalid metric under [errDesc]. *)
Lemma collectBatch_trace c batch w :
  batch <> [] ->
  let w' := final (collectBatch c batch w) in
  calls w' = calls w ++ [batch]
  /\ exists new, sent w' = sent w ++ new
       /\ Forall (reported c) new
       /\ (length (invalids new) <= 1)%nat
       /\ (length new <= length batch)%nat.
Proof.
  intros Hne. cbv zeta.
  assert (0 < length batch)%nat as Hpos by (destruct batch; [easy|cbn; lia]).
  destruct (GetMetricsResults (rep w) batch) as [r' [e|results]] eqn:Hget;
    rewrite (collectBatch_eq c batch w r' _ Hne Hget).
  - cbn. split; [reflexivity|]. eexists [_]. split; [reflexivity|].
    split; [repeat constructor|]. cbn. lia.
  - destruct (length results =? length batch)%nat eqn:Hlen.
    + apply Nat.eqb_eq in Hlen.
      destruct (range_body_trace c batch results (fetched w r' batch))
        as (_ & Hcalls & new & Hsent & Hs & Hn).
      split; [exact Hcalls|]. exists new. split; [exact Hsent|].
      split; [now apply reported_samples|]. rewrite invalids_samples by exact Hs.
      cbn. lia.
    + cbn. split; [reflexivity|]. exists []. rewrite app_nil_r. split; [reflexivity|].
      split; [constructor|]. cbn. lia.
Qed.

(** The batches of a loop over [collectBatch]: those reached are fetched, in
    order, all of them if the loop ends. *)
Lemma range_collectBatch_trace c bs : forall w,
  Forall (fun b => b <> []) bs ->
  let o := range bs (collectBatch c) w in
  exists k new,
    (k <= length bs)%nat
    /\ (bs <> [] -> 0 < k)%nat
    /\ calls (final o) = calls w ++ take k bs
    /\ (forall w', o = Done tt w' -> k = length bs)
    /\ sent (final o) = sent w ++ new
    /\ Forall (reported c) new
    /\ (length (invalids new) <= k)%nat
    /\ (length new <= length (concat (take k bs)))%nat.
Proof.
  induction bs as [|b bs IH]; intros w Hall; cbv zeta.
  - exists 0%nat, []. cbn. rewrite !app_nil_r. repeat split; auto. congruence.
  - inversion Hall as [|? ? Hb Hbs]; subst. rewrite range_cons.
    destruct (collectBatch_trace c b w Hb) as (Hcalls & new & Hsent & Hrep & Hinv & Hlen).
    destruct (collectBatch c b w) as [[] w1|p w1]; cbn [final] in *.
    + destruct (IH w1 Hbs)
        as (k & new2 & Hk & _ & Hcalls2 & Hdone & Hsent2 & Hrep2 & Hinv2 & Hlen2).
      exists (S k), (new ++ new2). cbn [length take concat].
      rewrite invalids_app, !length_app.
      split; [lia|]. split; [lia|].
      split; [rewrite Hcalls2, Hcalls, <- app_assoc; reflexivity|].
      split; [intros w' Hw'; now rewrite (Hdone w' Hw')|].
      split; [now rewrite Hsent2, Hsent, <- app_assoc|].
      split; [now apply Forall_app|]. split; lia.
    + exists 1%nat, new. cbn [length take concat]. rewrite take_0. cbn [concat].
      rewrite app_nil_r.
      split; [lia|]. split; [lia|]. split; [exact Hcalls|]. split; [discriminate|].
      split; [exact Hsent|]. split; [exact Hrep|]. split; lia.
Qed.

Lemma batches_nonempty {A} (l : list A) : Forall (fun b => b <> []) (batches batchSize l).
Proof.
  eapply Forall_impl; [apply batches_lengths; unfold batchSize; lia|].
  cbn. intros b Hb ->. cbn in Hb. lia.
Qed.

Lemma concat_take_length {A} (bs : list (list A)) (k : nat) :
  (length (concat (take k bs)) <= length (concat bs))%nat.
Proof.
  rewrite <- (take_drop k bs) at 2. rewrite concat_app, length_app. lia.
Qed.

(** X4: whatever the reporter answers, once the listing succeeds [Collect]
    is the loop of [collectBatch] over the consecutive batches of the
    listing: they make up the listing, none is empty or longer than
    [batchSize], all but the last are full, and an empty listing ends at
    once.  The requests [Collect] makes are the first [k] of these batches,
    in order, the first one at least, and all of them when it returns. *)
Theorem Collect_fetches c w (r' : R) metrics :
  ListMetrics (rep w) (namespace c) (metricName c) = (r', inr metrics) ->
  let bs := batches batchSize metrics in
  Collect c w = range bs (collectBatch c) (listed w r')
  /\ concat bs = metrics
  /\ Forall (fun b => (0 < length b <= batchSize)%nat) bs
  /\ (forall full b, bs = full ++ [b] -> Forall (fun b => length b = batchSize) full)
  /\ (metrics = [] -> Collect c w = Done tt (listed w r'))
  /\ exists k,
       calls (final (Collect c w)) = calls w ++ take k bs
       /\ (metrics <> [] -> 0 < k)%nat
       /\ (forall w', Collect c w = Done tt w' -> calls w' = calls w ++ bs).
Proof.
  intros Hlist bs.
  assert (Collect c w = range bs (collectBatch c) (listed w r')) as Hrun
    by now rewrite Collect_batches, Hlist.
  assert (0 < batchSize)%nat as Hpos by (unfold batchSize; lia).
  split; [exact Hrun|]. split; [now apply concat_batches|].
  split; [now apply batches_lengths|].
  split; [intros full b; now apply batches_full_but_last|].
  split; [intros ->; exact Hrun|].
  destruct (range_collectBatch_trace c bs (listed w r') (batches_nonempty metrics))
    as (k & new & Hk & Hfirst & Hcalls & Hdone & _).
  rewrite Hrun. exists k. split; [exact Hcalls|]. split.
  - intros Hne. apply Hfirst. intros Hbs.
    apply Hne. rewrite <- (concat_batches batchSize metrics Hpos). fold bs.
    now rewrite Hbs.
  - intros w' Hw'. rewrite Hw' in Hcalls. cbn [final] in Hcalls.
    rewrite (Hdone w' Hw'), firstn_all in Hcalls. exact Hcalls.
Qed.

(** X5: what [Collect] sends.  Every invalid metric is under the
    collector's [errDesc].  After a successful listing there is at most one
    invalid metric for each request made, and no more metrics are sent than
    the requests made hold, so no more than were listed. *)
Theorem Collect_sends c w :
  exists new,
    sent (final (Collect c w)) = sent w ++ new
    /\ Forall (reported c) new
    /\ forall (r' : R) metrics,
         ListMetrics (rep w) (namespace c) (metricName c) = (r', inr metrics) ->
         exists k,
           calls (final (Collect c w)) = calls w ++ take k (batches batchSize metrics)
           /\ (length (invalids new) <= k)%nat
           /\ (length new <= length (concat (take k (batches batchSize metrics))))%nat
           /\ (length new <= length metrics)%nat.
Proof.
  rewrite Collect_batches.
  destruct (ListMetrics (rep w) (namespace c) (metricName c)) as [r0 [e|metrics]].
  - cbn. eexists [_]. split; [reflexivity|]. split; [repeat constructor|].
    intros r' metrics [=].
  - destruct (range_collectBatch_trace c (batches batchSize metrics) (listed w r0)
                (batches_nonempty metrics))
      as (k & new & Hk & _ & Hcalls & _ & Hsent & Hrep & Hinv & Hlen).
    exists new. split; [exact Hsent|]. split; [exact Hrep|].
    intros r' metrics' [= <- <-]. exists k.
    split; [exact Hcalls|]. split; [exact Hinv|]. split; [exact Hlen|].
    etransitivity; [exact Hlen|]. etransitivity; [apply concat_take_length|].
    rewrite concat_batches by (unfold batchSize; lia). reflexivity.
Qed.

(** ** Where a panic comes from *)

Lemma range_panicked {A} (body : A -> M unit) l : forall w p w',
  range l body w = Panicked p w' ->
  exists before x after w1,
    l = before ++ x :: after
    /\ range before body w = Done tt w1
    /\ body x w1 = Panicked p w'.
Proof.
  induction l as [|x l IH]; intros w p w' Hrun; [discriminate|].
  rewrite range_cons in Hrun. destruct (body x w) as [[] w1|p1 w1] eqn:Hx.
  - destruct (IH w1 p w' Hrun) as (before & y & after & w2 & -> & Hbefore & Hy).
    exists (x :: before), y, after, w2. split; [reflexivity|].
    split; [|exact Hy]. now rewrite range_cons, Hx.
  - injection Hrun as <- <-. exists [], x, l, w. repeat split. exact Hx.
Qed.

(** X6: [Collect] panics only while it processes the results of a request
    that succeeded: the listing succeeded, the batches before were
    processed to their end, and either the number of results is not the
    number of metrics of the batch, which is the panic with the message,
    or it is and the panic, another one, is that of one result, those
    before it processed to their end.  No failed request, and no index or
    bound of [Collect]'s own slice, makes it panic. *)
Theorem Collect_panics_in_results c w p w' :
  Collect c w = Panicked p w' ->
  exists (r0 : R) metrics before batch after w1 (r1 : R) results,
    ListMetrics (rep w) (namespace c) (metricName c) = (r0, inr metrics)
    /\ batches batchSize metrics = before ++ batch :: after
    /\ range before (collectBatch c) (listed w r0) = Done tt w1
    /\ GetMetricsResults (rep w1) batch = (r1, inr results)
    /\ collectBatch c batch w1 = Panicked p w'
    /\ (length results <> length batch ->
        p = PanicString ("not same length: " ++ strconv.Itoa (length results)
                           ++ " != " ++ strconv.Itoa (length batch))
        /\ w' = fetched w1 r1 batch)
    /\ (length results = length batch ->
        exists served r rest w2,
          results = served ++ r :: rest
          /\ range served (collectBatch_body c batch) (fetched w1 r1 batch) = Done tt w2
          /\ collectBatch_body c batch r w2 = Panicked p w'
          /\ fromPanicString p = false).
Proof.
  intros Hrun. rewrite Collect_batches in Hrun.
  destruct (ListMetrics (rep w) (namespace c) (metricName c)) as [r0 [e|metrics]];
    [discriminate|].
  destruct (range_panicked _ _ _ _ _ Hrun) as (before & batch & after & w1 & Hsplit & Hbefore & Hbatch).
  assert (batch <> []) as Hne.
  { pose proof (batches_nonempty metrics) as Hall. rewrite Hsplit in Hall.
    apply Forall_app in Hall as [_ Hall]. now inversion Hall. }
  destruct (GetMetricsResults (rep w1) batch) as [r1 [e|results]] eqn:Hget;
    pose proof Hbatch as Hbatch';
    rewrite (collectBatch_eq c batch w1 r1 _ Hne Hget) in Hbatch'; [discriminate|].
  exists r0, metrics, before, batch, after, w1, r1, results.
  split; [reflexivity|]. split; [exact Hsplit|]. split; [exact Hbefore|].
  split; [exact Hget|]. split; [exact Hbatch|].
  destruct (length results =? length batch)%nat eqn:Hlen.
  - apply Nat.eqb_eq in Hlen. split; [congruence|]. intros _.
    destruct (range_panicked _ _ _ _ _ Hbatch') as (served & r & rest & w2 & -> & Hserved & Hr).
    exists served, r, rest, w2. repeat split; auto.
    eapply collectBatch_body_panic; exact Hr.
  - apply Nat.eqb_neq in Hlen. split; [|congruence]. intros _.
    now injection Hbatch' as <- <-.
Qed.

(** ** Samples in the order of the results *)

Lemma collectBatch_body_summary c batch r w :
  let o := collectBatch_body c batch r w in
  exists new, sent (final o) = sent w ++ new
    /\ match o with
       | Done _ _ => map summary new = map Some (option_list (sample_of batch r))
       | Panicked _ _ => new = []
       end.
Proof.
  cbv zeta. unfold sample_of. destruct (position batch r) as [i|] eqn:Hpos.
  - pose proof (position_lt batch r i Hpos) as Hlt.
    destruct (lookup_lt_is_Some_2 batch i Hlt) as [m Hm].
    rewrite (collectBatch_body_resolved c batch r w i m Hpos Hm), Hm.
    destruct (dimensions (types.Dimensions m)) as [[lns lvs]|] eqn:Hdims.
    + destruct (types.Values r) as [|v vs].
      * exists []. cbn. now rewrite app_nil_r.
      * destruct (reads_or_nil m) as [(ns & mn & lns' & lvs' & Hreads)|Hnil].
        -- pose proof Hreads as (_ & _ & Hd). rewrite Hdims in Hd. injection Hd as <- <-.
           rewrite (collectMetric_run c m v w ns mn lns lvs Hreads). cbv zeta.
           destruct (prometheus.NewConstMetric _ v lvs) as [e|s] eqn:Hnew; cbn [final].
           ++ exists []. now rewrite app_nil_r, looked_up_sent.
           ++ apply NewConstMetric_inr in Hnew as [-> _]. eexists [_].
              cbn [emit sent]. now rewrite looked_up_sent.
        -- rewrite (collectMetric_nil c m v w Hnil). exists []. cbn. now rewrite app_nil_r.
    + exists []. cbn. now rewrite app_nil_r.
  - destruct (collectBatch_body_unresolved c batch r w Hpos) as [p ->].
    exists []. cbn. now rewrite app_nil_r.
Qed.

Lemma omap_cons {A B} (f : A -> option B) (x : A) (l : list A) :
  omap f (x :: l) = option_list (f x) ++ omap f l.
Proof. cbn. now destruct (f x). Qed.

Lemma range_body_summary c batch results : forall w,
  let o := range results (collectBatch_body c batch) w in
  exists k new,
    (k <= length results)%nat
    /\ sent (final o) = sent w ++ new
    /\ map summary new = map Some (omap (sample_of batch) (take k results))
    /\ Forall (fun r => is_Some (position batch r)) (take k results)
    /\ (forall w', o = Done tt w' -> k = length results).
Proof.
  induction results as [|r results IH]; intros w; cbv zeta.
  - exists 0%nat, []. cbn. rewrite app_nil_r. repeat split; auto.
  - rewrite range_cons.
    destruct (collectBatch_body_summary c batch r w) as (new & Hsent & Hnew).
    destruct (collectBatch_body c batch r w) as [[] w1|p w1] eqn:Hr; cbn [final] in *.
    + destruct (IH w1) as (k & new2 & Hk & Hsent2 & Hsum & Hpos & Hdone).
      exists (S k), (new ++ new2). cbn [length take].
      split; [lia|]. split; [now rewrite Hsent2, Hsent, <- app_assoc|].
      split; [|split].
      * now rewrite map_app, Hnew, Hsum, <- map_app, omap_cons.
      * constructor; [|exact Hpos].
        destruct (position batch r) eqn:Hp; [eauto|].
        destruct (collectBatch_body_unresolved c batch r w Hp) as [p Hp'].
        rewrite Hp' in Hr. discriminate.
      * intros w' Hw'. now rewrite (Hdone w' Hw').
    + subst new. exists 0%nat, []. cbn [length take omap map].
      split; [lia|]. split; [exact Hsent|]. repeat split; auto. discriminate.
Qed.

(** X7: [collectBatch] sends its samples in the order of the results, not
    of the batch: after a request that gave as many results as metrics,
    the samples sent are, for the first [k] results, those with a value,
    each with its first value and the dimension values of the metric its
    id leads to; each of these ids leads to a metric, and [k] is the
    number of results when [collectBatch] returns. *)
Theorem collectBatch_in_result_order c batch w (r' : R) results :
  batch <> [] -> GetMetricsResults (rep w) batch = (r', inr results) ->
  length results = length batch ->
  exists k new,
    (k <= length results)%nat
    /\ sent (final (collectBatch c batch w)) = sent w ++ new
    /\ map summary new = map Some (omap (sample_of batch) (take k results))
    /\ Forall (fun r => is_Some (position batch r)) (take k results)
    /\ (forall w', collectBatch c batch w = Done tt w' ->
          map summary new = map Some (omap (sample_of batch) results)
          /\ Forall (fun r => is_Some (position batch r)) results).
Proof.
  intros Hne Hget Hlen. rewrite (collectBatch_eq c batch w r' _ Hne Hget).
  apply Nat.eqb_eq in Hlen. rewrite Hlen.
  destruct (range_body_summary c batch results (fetched w r' batch))
    as (k & new & Hk & Hsent & Hsum & Hpos & Hdone).
  exists k, new. split; [exact Hk|]. split; [exact Hsent|]. split; [exact Hsum|].
  split; [exact Hpos|]. intros w' Hw'. specialize (Hdone w' Hw'). subst k.
  rewrite firstn_all in Hsum, Hpos. now split.
Qed.

(** ** Descriptors allocated and descriptors cached *)

Lemma tidy_frame w w' :
  descMap w' = descMap w -> nextAddr w' = nextAddr w -> tidy w -> tidy w'.
Proof. unfold tidy. intros -> ->. auto. Qed.

Lemma looked_up_tidy w ns mn lns : tidy w -> tidy (looked_up w ns mn lns).
Proof.
  unfold looked_up. destruct (descMap w !! descKey lns) as [d|] eqn:Hfound; [auto|].
  intros (Haddr & Hinj & Hsize). unfold tidy. cbn [cache descMap nextAddr].
  split; [|split].
  - intros key d. destruct (decide (key = descKey lns)) as [->|Hkey].
    + rewrite lookup_insert_eq. intros [= <-]. cbn. lia.
    + rewrite lookup_insert_ne by congruence. intros Hd.
      specialize (Haddr key d Hd). lia.
  - intros k1 k2 d1 d2.
    destruct (decide (k1 = descKey lns)) as [->|Hk1];
      destruct (decide (k2 = descKey lns)) as [->|Hk2]; [reflexivity| | |].
    + rewrite lookup_insert_eq, lookup_insert_ne by congruence.
      intros [= <-] Hd2. cbn. specialize (Haddr k2 d2 Hd2). lia.
    + rewrite lookup_insert_eq, lookup_insert_ne by congruence.
      intros Hd1 [= <-]. cbn. specialize (Haddr k1 d1 Hd1). lia.
    + rewrite !lookup_insert_ne by congruence. apply Hinj.
  - rewrite map_size_insert_None by exact Hfound. now rewrite Hsize.
Qed.

Lemma Collect_tidy c w :
  tidy w /\ sound_cache w ->
  tidy (final (Collect c w)) /\ sound_cache (final (Collect c w)).
Proof.
  intros HQ.
  destruct (keeps_Collect c (fun w => tidy w /\ sound_cache w) (fun _ _ => True))
    with (w := w) as (HQ' & _); [| |exact HQ|exact HQ'].
  - intros w1 w2 Hmap Haddr [Ht Hs]. split; [now apply (tidy_frame w1)|].
    intros key d. rewrite Hmap. apply Hs.
  - intros m v. apply keeps_collectMetric.
    + intros w1 w2 Hmap Haddr [Ht Hs]. split; [now apply (tidy_frame w1)|].
      intros key d. rewrite Hmap. apply Hs.
    + intros w1 ns mn lns [Ht Hs]. split; [now apply looked_up_tidy|now apply looked_up_sound].
    + auto.
Qed.

(** X8: from [newCollector] on, after any number of runs of [Collect]:
    every cached descriptor was made by [collectMetric] for its key, there
    are as many cached descriptors as were allocated, each was allocated
    after [errDesc], which is never cached, and no two keys share one. *)
Theorem scrapes_tidy (r : R) ns mn (n : nat) :
  let c := (newCollector r ns mn).1 in
  let w := scrapes c n (newCollector r ns mn).2 in
  sound_cache w
  /\ size (descMap w) = pred (nextAddr w)
  /\ (forall key d, descMap w !! key = Some d ->
        (0 < prometheus.addr d < nextAddr w)%nat /\ d <> errDesc c)
  /\ (forall k1 k2 d, descMap w !! k1 = Some d -> descMap w !! k2 = Some d -> k1 = k2).
Proof.
  cbv zeta.
  assert (forall c w0, tidy w0 /\ sound_cache w0 ->
            tidy (scrapes c n w0) /\ sound_cache (scrapes c n w0)) as Hall.
  { induction n as [|n IH]; intros c w0 HQ; [exact HQ|].
    cbn [scrapes]. apply IH. now apply Collect_tidy. }
  destruct (Hall (newCollector r ns mn).1 (newCollector r ns mn).2)
    as ((Haddr & Hinj & Hsize) & Hsound).
  { split; [|apply newCollector_sound]. unfold tidy. cbn.
    split; [intros key d; now rewrite lookup_empty|].
    split; [intros k1 k2 d1 d2; now rewrite lookup_empty|].
    now rewrite map_size_empty. }
  split; [exact Hsound|]. split; [now rewrite Hsize|]. split.
  - intros key d Hd. specialize (Haddr key d Hd). split; [exact Haddr|].
    intros ->. cbn in Haddr. lia.
  - intros k1 k2 d H1 H2. now apply (Hinj k1 k2 d d).
Qed.

(** ** [Describe] *)

Lemma every_app (P : ascii -> bool) (a b : string) :
  every P (a ++ b) = every P a && every P b.
Proof.
  induction a as [|ch a IH]; [reflexivity|].
  change (every P (String ch (a ++ b)) = every P (String ch a) && every P b).
  cbn [every]. now rewrite IH, andb_assoc.
Qed.

Lemma descName_underscore ns mn : underscoreless (descName ns mn) = false.
Proof.
  unfold underscoreless, descName. rewrite !every_app.
  change (every _ "_") with false. now rewrite andb_false_r.
Qed.

Lemma collectMetric_named c m v :
  keeps (R := R) sound_cache named_by_parts [m] (collectMetric c m v).
Proof.
  apply keeps_collectMetric.
  - intros w w' Hmap _ Hs key d. rewrite Hmap. apply Hs.
  - intros w ns mn lns. apply looked_up_sound.
  - intros w ns mn lns lvs Hsound _ _. unfold named_by_parts, descriptor.
    destruct (descMap w !! descKey lns) as [d|] eqn:Hfound.
    + destruct (Hsound _ _ Hfound) as (a & ns0 & mn0 & lns0 & -> & _).
      apply descName_underscore.
    + apply descName_underscore.
Qed.

(** X9: [Describe] announces a new descriptor, named ["dummy"] and
    without labels, and touches neither the cache nor the metrics sent;
    and with a cache that [collectMetric] filled, none of the samples
    [Collect] sends is under a descriptor of that name. *)
Theorem Describe_dummy c w :
  (exists d, Describe c w = Done d {| rep := rep w; nextAddr := S (nextAddr w);
                                      descMap := descMap w; sent := sent w;
                                      calls := calls w |}
     /\ prometheus.addr d = nextAddr w
     /\ prometheus.fqName d = "dummy"%string
     /\ prometheus.variableLabels d = [])
  /\ (forall w0, sound_cache w0 ->
        exists new, sent (final (Collect c w0)) = sent w0 ++ new
          /\ forall d v lvs, prometheus.constMetric d v lvs ∈ new ->
               prometheus.fqName d <> "dummy"%string).
Proof.
  split; [eexists; split; [reflexivity|]; repeat split|].
  intros w0 Hsound.
  destruct (keeps_Collect c sound_cache named_by_parts) with (w := w0)
    as (_ & new & Hsent & Hnew).
  - intros w1 w2 Hmap _ Hs key d. rewrite Hmap. apply Hs.
  - intros m v. apply collectMetric_named.
  - exact Hsound.
  - exists new. split; [exact Hsent|].
    intros d v lvs Hin. rewrite List.Forall_forall in Hnew.
    apply list_elem_of_In in Hin.
    destruct (Hnew _ Hin eq_refl) as (m & _ & Hname). cbn in Hname.
    intros Heq. rewrite Heq in Hname. discriminate.
Qed.

(** ** When every request fails *)

Lemma range_collectBatch_failing c bs : forall w,
  (forall (r : R) batch, batch <> [] -> (length batch <= batchSize)%nat ->
     exists r' e, GetMetricsResults r batch = (r', inl e)) ->
  Forall (fun b => (0 < length b <= batchSize)%nat) bs ->
  exists w' errors,
    range bs (collectBatch c) w = Done tt w'
    /\ descMap w' = descMap w /\ nextAddr w' = nextAddr w
    /\ calls w' = calls w ++ bs
    /\ sent w' = sent w ++ errors
    /\ length errors = length bs
    /\ Forall (fun s => exists e, s = prometheus.invalidMetric (errDesc c) e) errors.
Proof.
  intros w Hfail. revert w. induction bs as [|b bs IH]; intros w Hall.
  - exists w, []. cbn. rewrite !app_nil_r. repeat split; auto.
  - inversion Hall as [|? ? Hb Hbs]; subst. rewrite range_cons.
    assert (b <> []) as Hne by (intros ->; cbn in Hb; lia).
    destruct (Hfail (rep w) b Hne ltac:(lia)) as (r' & e & Hget).
    rewrite (collectBatch_eq c b w r' _ Hne Hget).
    destruct (IH (emit (fetched w r' b) (prometheus.invalidMetric (errDesc c) e)) Hbs)
      as (w' & errors & Hrun & Hmap & Haddr & Hcalls & Hsent & Hlen & Herr).
    exists w', (prometheus.invalidMetric (errDesc c) e :: errors).
    split; [exact Hrun|]. split; [exact Hmap|]. split; [exact Haddr|].
    split; [rewrite Hcalls; cbn; now rewrite <- app_assoc|].
    split; [rewrite Hsent; cbn; now rewrite <- app_assoc|].
    split; [cbn; now rewrite Hlen|]. constructor; eauto.
Qed.

(** X10: when the listing succeeds and the reporter fails every request,
    [Collect] returns; it has requested every batch and sent, for each, one
    invalid metric under [errDesc], and no descriptor was created. *)
Theorem Collect_every_fetch_fails c w (r0 : R) metrics :
  ListMetrics (rep w) (namespace c) (metricName c) = (r0, inr metrics) ->
  (forall (r : R) batch, batch <> [] -> (length batch <= batchSize)%nat ->
     exists r' e, GetMetricsResults r batch = (r', inl e)) ->
  exists w' errors,
    Collect c w = Done tt w'
    /\ descMap w' = descMap w /\ nextAddr w' = nextAddr w
    /\ calls w' = calls w ++ batches batchSize metrics
    /\ sent w' = sent w ++ errors
    /\ length errors = length (batches batchSize metrics)
    /\ Forall (fun s => exists e, s = prometheus.invalidMetric (errDesc c) e) errors.
Proof.
  intros Hlist Hfail. rewrite Collect_batches, Hlist.
  apply (range_collectBatch_failing c (batches batchSize metrics) (listed w r0) Hfail).
  apply batches_lengths. unfold batchSize. lia.
Qed.

(** ** After a failed request *)

Lemma collectBatch_rep c batch w (r' : R) res :
  batch <> [] -> GetMetricsResults (rep w) batch = (r', res) ->
  rep (final (collectBatch c batch w)) = r'.
Proof.
  intros Hne Hget. rewrite (collectBatch_eq c batch w r' _ Hne Hget).
  destruct res as [e|results]; [reflexivity|].
  destruct (length results =? length batch)%nat; [|reflexivity].
  now destruct (range_body_trace c batch results (fetched w r' batch)) as (-> & _).
Qed.

Lemma range_collectBatch_obliged (Good : R -> Prop) c bs : forall w,
  obliges Good -> Good (rep w) ->
  Forall (fun b => b <> [] /\ (length b <= batchSize)%nat /\ forallb plain b = true) bs ->
  plain_cache w ->
  exists w', range bs (collectBatch c) w = Done tt w'
             /\ plain_cache w' /\ produced w w' (length (concat bs)) bs.
Proof.
  intros w Hrep. revert w. induction bs as [|b bs IH]; intros w Hgood Hall Hcache.
  - exists w. split; [reflexivity|]. split; [exact Hcache|apply produced_refl].
  - inversion Hall as [|? ? (Hne & Hsize & Hplain) Hrest]; subst.
    destruct (Hrep (rep w) b Hgood Hne Hsize) as (r' & results & Hget & Hans & Hvals & Hgood').
    destruct (collectBatch_plain c b w Hne Hsize Hplain Hcache)
      as (w1 & Hrun & Hc1 & Hp1); [now exists r', results|].
    pose proof (collectBatch_rep c b w r' _ Hne Hget) as Hr1.
    rewrite Hrun in Hr1. cbn [final] in Hr1. rewrite <- Hr1 in Hgood'.
    destruct (IH w1 Hgood' Hrest Hc1) as (w2 & Hrun2 & Hc2 & Hp2).
    exists w2. rewrite range_cons, Hrun. split; [exact Hrun2|]. split; [exact Hc2|].
    cbn [concat]. rewrite length_app.
    apply (produced_trans _ _ _ _ _ [b] bs Hp1 Hp2).
Qed.

Lemma forallb_concat {A} (P : A -> bool) (bs : list (list A)) :
  forallb P (concat bs) = true -> Forall (fun b => forallb P b = true) bs.
Proof.
  induction bs as [|b bs IH]; [constructor|]. cbn [concat].
  rewrite forallb_app. intros Hall. apply andb_prop in Hall as [Hb Hbs].
  constructor; [exact Hb|now apply IH].
Qed.

(** C3: in a scrape whose listing is cut into the batches
    [before ++ batch :: after], once the batches [before] are done, a
    failure of [GetMetricsResults] on [batch] makes [collectBatch] send one
    invalid metric carrying the failure, and nothing else, and return;
    [Collect] then goes on with the batches [after].  Each of them that is
    reached, fetched and processed to its end has its samples sent: for
    each of its results with a value, in order, one with the first value
    and the dimension values of the metric the id leads to; and they are
    among what [Collect] has sent in the end.  And when the reporter, from
    the state the failure left it in, answers by its contract with a value
    in each result, the remaining metrics are plain and the cache is plain,
    [Collect] returns, and what it sent after the failure is exactly one
    sample for each metric of the batches [after], all of which were
    requested. *)
Theorem collectBatch_error_goes_on c w (r0 : R) metrics before batch after w1 (r1 : R) e :
  ListMetrics (rep w) (namespace c) (metricName c) = (r0, inr metrics) ->
  batches batchSize metrics = before ++ batch :: after ->
  range before (collectBatch c) (listed w r0) = Done tt w1 ->
  GetMetricsResults (rep w1) batch = (r1, inl e) ->
  let failure := prometheus.invalidMetric (errDesc c) e in
  let w2 := emit (fetched w1 r1 batch) failure in
  collectBatch c batch w1 = Done tt w2
  /\ Collect c w = range after (collectBatch c) w2
  /\ (forall mid b rest w3 (r3 : R) results w4,
        after = mid ++ b :: rest ->
        range mid (collectBatch c) w2 = Done tt w3 ->
        GetMetricsResults (rep w3) b = (r3, inr results) ->
        collectBatch c b w3 = Done tt w4 ->
        exists new later,
          sent w4 = sent w3 ++ new
          /\ map summary new = map Some (omap (sample_of b) results)
          /\ sent (final (Collect c w)) = sent w4 ++ later)
  /\ (forall Good : R -> Prop,
        obliges Good -> Good r1 ->
        forallb plain (concat after) = true -> plain_cache w1 ->
        exists w' samples,
          Collect c w = Done tt w'
          /\ sent w' = sent w1 ++ failure :: samples
          /\ length samples = length (concat after)
          /\ forallb isSample samples = true
          /\ calls w' = calls w1 ++ batch :: after).
Proof.
  intros Hlist Hsplit Hbefore Hget failure w2.
  assert (0 < batchSize)%nat as Hpos by (unfold batchSize; lia).
  pose proof (batches_lengths batchSize metrics Hpos) as Hlens. rewrite Hsplit in Hlens.
  apply List.Forall_app in Hlens as [_ Hlens].
  inversion Hlens as [|? ? Hb Hafter]; subst.
  assert (batch <> []) as Hne by (intros ->; cbn in Hb; lia).
  pose proof (collectBatch_eq c batch w1 r1 _ Hne Hget) as Hbatch. cbv beta iota in Hbatch.
  assert (Collect c w = range after (collectBatch c) w2) as Hrun.
  { rewrite Collect_batches, Hlist, Hsplit, range_app, Hbefore, range_cons, Hbatch.
    reflexivity. }
  split; [exact Hbatch|]. split; [exact Hrun|]. split.
  - intros mid b rest w3 r3 results w4 -> Hmid Hget3 Hb4.
    apply List.Forall_app in Hafter as [_ Hrest].
    inversion Hrest as [|? ? Hb3 Hrest']; subst.
    assert (b <> []) as Hne3 by (intros ->; cbn in Hb3; lia).
    pose proof Hb4 as Hb4'. rewrite (collectBatch_eq c b w3 r3 _ Hne3 Hget3) in Hb4'.
    destruct (length results =? length b)%nat; [|discriminate].
    destruct (range_body_summary c b results (fetched w3 r3 b))
      as (k & new & _ & Hsent & Hsum & _ & Hdone).
    rewrite Hb4' in Hsent. cbn [final] in Hsent.
    rewrite (Hdone w4 Hb4'), firstn_all in Hsum.
    destruct (range_collectBatch_trace c rest w4) as (_ & later & _ & _ & _ & _ & Hlater & _).
    { eapply Forall_impl; [exact Hrest'|]. cbn. intros b' Hb' ->. cbn in Hb'. lia. }
    exists new, later. split; [exact Hsent|]. split; [exact Hsum|].
    rewrite Hrun, range_app, Hmid, range_cons, Hb4. exact Hlater.
  - intros Good Hrep Hgood Hplain Hcache.
    destruct (range_collectBatch_obliged Good c after w2 Hrep Hgood)
      as (w' & Hdone & _ & Hcalls & samples & Hsent & Hn & His).
    + apply forallb_concat in Hplain. rewrite List.Forall_forall in Hplain, Hafter.
      apply List.Forall_forall. intros b Hin. specialize (Hafter b Hin).
      split; [intros ->; cbn in Hafter; lia|]. split; [lia|now apply Hplain].
    + exact Hcache.
    + exists w', samples. rewrite Hrun. split; [exact Hdone|].
      split; [rewrite Hsent; cbn; now rewrite <- app_assoc|].
      split; [exact Hn|]. split; [exact His|].
      rewrite Hcalls. cbn. now rewrite <- app_assoc.
Qed.

End properties.


(** * Examples *)

Section examples.

Local Existing Instance strcase_ascii.lib.
Local Existing Instance legacy.validation.

Lemma Collect_ListMetrics_error_witness :
  ListMetrics (Reporter := unlisted) (rep fresh.2) (namespace fresh.1) (metricName fresh.1)
    = (0%nat, inl throttled)
  /\ Collect (Rep := unlisted) fresh.1 fresh.2 =
     Done tt {| rep := 0%nat; nextAddr := 1; descMap := ∅;
                sent := [prometheus.invalidMetric (errDesc fresh.1) throttled];
                calls := [] |}.
Proof.
  split; [reflexivity|].
  apply (Collect_ListMetrics_error (Rep := unlisted) fresh.1 fresh.2). reflexivity.
Defined.

Lemma healthy_obliging : obliging (Rep := healthy).
Proof.
  intros r batch _ _. exists (S r), (mock.echo [1.5%float] batch).
  split; [reflexivity|]. split.
  - unfold answers, mock.echo, mock.echo_from. rewrite map_map. reflexivity.
  - unfold mock.echo, mock.echo_from. apply List.Forall_forall. intros x Hx.
    apply in_map_iff in Hx as (i & <- & _). discriminate.
Qed.

Lemma Collect_all_samples_witness :
  ListMetrics (Reporter := healthy) (rep fresh.2) (namespace fresh.1) (metricName fresh.1)
    = (0%nat, inr metrics567)
  /\ obliging (Rep := healthy)
  /\ forallb plain metrics567 = true
  /\ plain_cache fresh.2
  /\ exists w' samples bs,
    Collect (Rep := healthy) fresh.1 fresh.2 = Done tt w'
    /\ plain_cache w'
    /\ sent w' = sent fresh.2 ++ samples
    /\ length samples = length metrics567
    /\ forallb isSample samples = true
    /\ calls w' = calls fresh.2 ++ bs
    /\ concat bs = metrics567
    /\ Forall (fun b => (0 < length b <= batchSize)%nat) bs
    /\ (forall full b, bs = full ++ [b] -> Forall (fun b => length b = batchSize) full)
    /\ (length metrics567 = 567%nat -> map length bs = [500; 67]%nat)
    /\ (metrics567 = [] -> bs = []).
Proof.
  assert (forallb plain metrics567 = true) as Hplain by (vm_compute; reflexivity).
  split; [reflexivity|]. split; [exact healthy_obliging|]. split; [exact Hplain|].
  split; [apply newCollector_plain|].
  apply (Collect_all_samples (Rep := healthy) fresh.1 fresh.2 0%nat metrics567);
    [reflexivity|exact healthy_obliging|exact Hplain|apply newCollector_plain].
Defined.

(** The test's scenario, run: 567 metrics give 567 samples through two
    requests, of 500 and of 67 metrics. *)
Example Collect_567 :
  let o := Collect (Rep := healthy) fresh.1 fresh.2 in
  length (sent (final o)) = 567%nat
  /\ forallb isSample (sent (final o)) = true
  /\ map length (calls (final o)) = [500; 67]%nat.
Proof. vm_compute. auto. Qed.

Lemma flaky_obliges : obliges (Rep := flaky) (fun r => (1 <= r)%nat).
Proof.
  intros r batch Hr _ _. exists (S r), (mock.echo [1.5%float] batch).
  split; [cbn; destruct r; [lia|reflexivity]|]. split; [|split; [|lia]].
  - unfold answers, mock.echo, mock.echo_from. rewrite map_map. reflexivity.
  - unfold mock.echo, mock.echo_from. apply List.Forall_forall. intros x Hx.
    apply in_map_iff in Hx as (i & <- & _). discriminate.
Qed.

Lemma collectBatch_error_goes_on_witness :
  let batch := take 500 metrics567 in
  let after := [drop 500 metrics567] in
  let failure := prometheus.invalidMetric (errDesc fresh.1) throttled in
  let w2 := emit (fetched (listed fresh.2 0%nat) 1%nat batch) failure in
  (ListMetrics (Reporter := flaky) (rep fresh.2) (namespace fresh.1) (metricName fresh.1)
     = (0%nat, inr metrics567)
   /\ batches batchSize metrics567 = [] ++ batch :: after
   /\ range [] (collectBatch (Rep := flaky) fresh.1) (listed fresh.2 0%nat)
      = Done tt (listed fresh.2 0%nat)
   /\ GetMetricsResults (Reporter := flaky) (rep (listed fresh.2 0%nat)) batch
      = (1%nat, inl throttled)
   /\ obliges (Rep := flaky) (fun r => (1 <= r)%nat)
   /\ forallb plain (concat after) = true
   /\ plain_cache (listed fresh.2 0%nat))
  /\ collectBatch (Rep := flaky) fresh.1 batch (listed fresh.2 0%nat) = Done tt w2
  /\ Collect (Rep := flaky) fresh.1 fresh.2
     = range after (collectBatch (Rep := flaky) fresh.1) w2
  /\ exists w' samples,
       Collect (Rep := flaky) fresh.1 fresh.2 = Done tt w'
       /\ sent w' = sent (listed fresh.2 0%nat) ++ failure :: samples
       /\ length samples = length (concat after)
       /\ forallb isSample samples = true
       /\ calls w' = calls (listed fresh.2 0%nat) ++ batch :: after.
Proof.
  cbv zeta.
  assert (batches batchSize metrics567
          = [] ++ take 500 metrics567 :: [drop 500 metrics567]) as Hsplit
    by (vm_compute; reflexivity).
  assert (forallb plain (concat [drop 500 metrics567]) = true) as Hplain
    by (vm_compute; reflexivity).
  assert (plain_cache (listed fresh.2 0%nat)) as Hcache
    by exact (newCollector_plain 0%nat "AWS/EC2" "NetworkIn").
  split.
  { split; [reflexivity|]. split; [exact Hsplit|]. split; [reflexivity|].
    split; [reflexivity|]. split; [exact flaky_obliges|]. split; [exact Hplain|exact Hcache]. }
  destruct (collectBatch_error_goes_on (Rep := flaky) fresh.1 fresh.2 0%nat metrics567
              [] (take 500 metrics567) [drop 500 metrics567] (listed fresh.2 0%nat)
              1%nat throttled eq_refl Hsplit eq_refl eq_refl)
    as (Hbatch & Hrun & _ & Hgoes).
  split; [exact Hbatch|]. split; [exact Hrun|].
  exact (Hgoes (fun r => (1 <= r)%nat) flaky_obliges (le_n 1) Hplain Hcache).
Defined.

(** Run: the failed first batch leaves one invalid metric, and the 67
    samples of the second batch follow it. *)
Example Collect_flaky :
  let o := Collect (Rep := flaky) fresh.1 fresh.2 in
  map isSample (sent (final o)) = false :: replicate 67 true
  /\ map length (calls (final o)) = [500; 67]%nat.
Proof. vm_compute. auto. Qed.

Lemma result_values_to_samples_witness :
  let d := created 1 "AWS/EC2" "NetworkIn" ["InstanceId"%string] in
  sent (final (collectBatch_body fresh.1 four (result "n0" []) fresh.2)) = []
  /\ collectBatch_body fresh.1 four (result "n0" []) fresh.2
     = Done tt fresh.2
  /\ collectBatch_body fresh.1 four
                       (result "n1" [2.5%float; 1.5%float]) fresh.2
     = Done tt (emit (cache fresh.2 "InstanceId" d)
                     (prometheus.constMetric d 2.5%float ["i-1"%string])).
Proof.
  cbv zeta.
  pose proof (result_values_to_samples fresh.1 four
                (result "n0" []) fresh.2) as (Hnone & _ & Hsome).
  split; [exact (Hnone eq_refl)|].
  split.
  - apply (Hsome 0%nat (ec2 "NetworkIn" 0) "AWS/EC2" "NetworkIn"
             ["InstanceId"] ["i-0"])%string; [reflexivity|reflexivity| |reflexivity].
    repeat split.
  - pose proof (result_values_to_samples fresh.1 four
                  (result "n1" [2.5%float; 1.5%float]) fresh.2) as (_ & _ & Hsome1).
    apply (Hsome1 1%nat (ec2 "NetworkIn" 1) "AWS/EC2" "NetworkIn"
             ["InstanceId"] ["i-1"] eq_refl eq_refl)%string with (vs := [1.5%float]);
      [repeat split|reflexivity|reflexivity].
Defined.

Lemma collectBatch_not_same_length_witness :
  four <> []
  /\ GetMetricsResults (Reporter := short) (rep fresh.2) four
     = (1%nat, inr (take 3 (mock.echo [1.5%float] four)))
  /\ length (take 3 (mock.echo [1.5%float] four)) <> length four
  /\ collectBatch (Rep := short) fresh.1 four fresh.2
     = Panicked (PanicString "not same length: 3 != 4") (fetched fresh.2 1%nat four)
  /\ (forall msg w', collectBatch (Rep := healthy) fresh.1 four fresh.2
                     <> Panicked (PanicString msg) w').
Proof.
  assert (four <> []) as Hne by discriminate.
  assert (length (take 3 (mock.echo [1.5%float] four)) <> length four) as Hlen
    by (cbn; lia).
  split; [exact Hne|]. split; [reflexivity|]. split; [exact Hlen|]. split.
  - exact (proj1 (proj1 (collectBatch_not_same_length (Rep := short) fresh.1 four fresh.2
                           1%nat _ Hne eq_refl) Hlen)).
  - exact (proj2 (collectBatch_not_same_length (Rep := healthy) fresh.1 four fresh.2
                    1%nat (mock.echo [1.5%float] four) Hne eq_refl) eq_refl).
Defined.

Lemma result_id_gives_position_witness :
  position four (result (queryId 2) [1.5%float]) = Some 2%nat
  /\ (exists m, four !! 2%nat = Some m)
  /\ position four (result "n4" [1.5%float]) = None
  /\ position four (result "" [1.5%float]) = None
  /\ exists p, fromPanicString p = false
       /\ collectBatch_body fresh.1 four (result "n4" [1.5%float]) fresh.2
          = Panicked p fresh.2.
Proof.
  pose proof (result_id_gives_position (R := nat) fresh.1 four)
    as (Hid & Hfound & Hlost).
  split; [apply Hid; [cbn; lia|unfold strconv.maxInt; lia]|].
  split.
  - destruct (Hfound (result (queryId 2) [1.5%float]) 2%nat) as (m & Hm & _);
      [reflexivity|]. now exists m.
  - split; [reflexivity|]. split; [reflexivity|].
    destruct (Hlost (result "n4" [1.5%float]) fresh.2 eq_refl) as (p & Hp & Hrun & _).
    now exists p.
Defined.

(** ** Under the library's name checks

    Under the original validation, label names that pass have no
    space. *)
Lemma legacy_name_spaceless (colon : bool) (l : string) :
  legacy.name_tail colon l = true -> spaceless l = true.
Proof.
  unfold spaceless. induction l as [|ch l IH]; [reflexivity|].
  cbn [legacy.name_tail spaces]. intros Hl. apply andb_prop in Hl as [Hch Hl].
  destruct (Ascii.eqb_spec ch " ") as [->|_]; [now destruct colon|].
  now apply IH.
Qed.

Lemma legacy_checked_spaceless (fqName help : string) (lns : list string) :
  legacy.checkDesc fqName help lns = None -> forallb spaceless lns = true.
Proof.
  unfold legacy.checkDesc. destruct (negb (legacy.IsValidMetricName fqName)); [discriminate|].
  destruct (find _ lns) as [l|] eqn:Hfind; [discriminate|]. intros _.
  apply forallb_forall. intros l Hl. pose proof (find_none _ _ Hfind l Hl) as Hok.
  apply negb_false_iff in Hok. unfold legacy.checkLabelName in Hok.
  apply andb_prop in Hok as [Hok _]. destruct l as [|ch l]; [discriminate|].
  cbn [legacy.name_ok] in Hok. apply andb_prop in Hok as [Hch Hl'].
  unfold spaceless. cbn [spaces].
  destruct (Ascii.eqb_spec ch " ") as [->|_]; [discriminate|].
  now apply (legacy_name_spaceless false).
Qed.

(** C9: under the name checks of [legacy.validation], and from a sound
    cache (the one of a new collector is sound, and [Collect] leaves it
    sound), every sample [Collect] sends has as many label values as its
    descriptor has label names, in the same order: the label names of the
    descriptor, be it a cached one made for an earlier metric, are the
    dimension names of a listed metric, in order, and the label values
    are the values of these dimensions, in order. *)
Theorem Collect_samples_in_order {R : Type} (Rep : Reporter R) (Str : strcase.Lib)
      (c : collector) (w : @World R) :
  sound_cache (Val := legacy.validation) w ->
  sound_cache (Val := legacy.validation) (final (Collect (Val := legacy.validation) c w))
  /\ exists new,
       sent (final (Collect (Val := legacy.validation) c w)) = sent w ++ new
       /\ forall d v lvs, prometheus.constMetric d v lvs ∈ new ->
            length lvs = length (prometheus.variableLabels d)
            /\ exists m ns mn,
                 lists c w m /\ reads m ns mn (prometheus.variableLabels d) lvs.
Proof.
  intros Hsound.
  destruct (keeps_Collect c sound_cache aligned) with (w := w)
    as (Hsound' & new & Hsent & Hnew).
  - intros w1 w2 Hmap _ Hs key d. rewrite Hmap. apply Hs.
  - intros m v. apply collectMetric_aligned.
  - exact Hsound.
  - split; [exact Hsound'|]. exists new. split; [exact Hsent|].
    intros d v lvs Hin. rewrite List.Forall_forall in Hnew.
    apply list_elem_of_In in Hin.
    destruct (Hnew _ Hin eq_refl)
      as (m & Hm & Hlen & Hchecked & ns & mn & lns & Hreads & _ & Hsp).
    split; [exact Hlen|]. exists m, ns, mn. split; [exact Hm|].
    now rewrite (Hsp (legacy_checked_spaceless _ _ _ Hchecked)).
Qed.

Lemma Collect_samples_in_order_witness :
  sound_cache fresh.2
  /\ sound_cache (final (Collect (Rep := two_names) fresh.1 fresh.2))
  /\ exists new,
       sent (final (Collect (Rep := two_names) fresh.1 fresh.2)) = sent fresh.2 ++ new
       /\ forall d v lvs, prometheus.constMetric d v lvs ∈ new ->
            length lvs = length (prometheus.variableLabels d)
            /\ exists m ns mn,
                 lists (Rep := two_names) fresh.1 fresh.2 m
                 /\ reads m ns mn (prometheus.variableLabels d) lvs.
Proof.
  split; [apply newCollector_sound|].
  apply (Collect_samples_in_order two_names strcase_ascii.lib fresh.1 fresh.2).
  apply newCollector_sound.
Defined.

Lemma Collect_samples_aligned_witness :
  sound_cache fresh.2
  /\ sound_cache (final (Collect (Rep := healthy) fresh.1 fresh.2))
  /\ exists new, sent (final (Collect (Rep := healthy) fresh.1 fresh.2)) = sent fresh.2 ++ new
       /\ forall d v lvs, prometheus.constMetric d v lvs ∈ new ->
            length lvs = length (prometheus.variableLabels d)
            /\ prometheus.checkDesc (prometheus.fqName d) (prometheus.help d)
                                    (prometheus.variableLabels d) = None
            /\ exists m ns mn lns,
                 lists (Rep := healthy) fresh.1 fresh.2 m /\ reads m ns mn lns lvs
                 /\ descKey (prometheus.variableLabels d) = descKey lns
                 /\ (forallb spaceless (prometheus.variableLabels d) = true ->
                     prometheus.variableLabels d = lns).
Proof.
  split; [apply newCollector_sound|].
  apply (Collect_samples_aligned (Rep := healthy) fresh.1 fresh.2).
  apply newCollector_sound.
Defined.

(** Against C7 as stated: in one scrape over two metrics that differ in
    their metric names only, the sample of the second one, [NetworkOut] of
    instance [i-1], is sent under a descriptor whose public name is not
    computed from its namespace and metric name, but is that of the
    first. *)
Lemma descriptor_name_not_from_sample :
  let d := created 1 "AWS/EC2" "NetworkIn" ["InstanceId"%string] in
  sent (final (Collect (Rep := two_names) fresh.1 fresh.2))
  = [prometheus.constMetric d 1.5%float ["i-0"%string];
     prometheus.constMetric d 1.5%float ["i-1"%string]]
  /\ prometheus.fqName d = "aws_ec2_network_in"%string
  /\ descName "AWS/EC2" "NetworkOut" = "aws_ec2_network_out"%string
  /\ prometheus.fqName d <> descName "AWS/EC2" "NetworkOut".
Proof.
  cbv zeta. split; [vm_compute; reflexivity|]. split; [vm_compute; reflexivity|].
  split; [vm_compute; reflexivity|]. vm_compute. discriminate.
Qed.

Lemma descriptor_naming_witness :
  let m := ec2 "NetworkOut" 1 in
  let d := descriptor fresh.2 "AWS/EC2" "NetworkOut" ["InstanceId"%string] in
  sound_cache fresh.2
  /\ reads m "AWS/EC2" "NetworkOut" ["InstanceId"%string] ["i-1"%string]
  /\ collectMetric fresh.1 m 1.5%float fresh.2
     = Done tt (emit (looked_up fresh.2 "AWS/EC2" "NetworkOut" ["InstanceId"%string])
                     (prometheus.constMetric d 1.5%float ["i-1"%string]))
  /\ prometheus.fqName d = "aws_ec2_network_out"%string
  /\ prometheus.variableLabels d = ["InstanceId"%string].
Proof.
  cbv zeta.
  assert (reads (ec2 "NetworkOut" 1) "AWS/EC2" "NetworkOut"
                ["InstanceId"%string] ["i-1"%string]) as Hreads by (repeat split).
  split; [apply newCollector_sound|]. split; [exact Hreads|].
  destruct (descriptor_naming fresh.1 (ec2 "NetworkOut" 1) 1.5%float fresh.2
              "AWS/EC2" "NetworkOut" ["InstanceId"%string] ["i-1"%string]
              (newCollector_sound 0%nat "AWS/EC2" "NetworkIn") Hreads)
    as (_ & _ & Hrun & Hmiss & _).
  split; [exact (Hrun eq_refl)|].
  destruct (Hmiss eq_refl) as [Hname Hlabels]. split; [|exact Hlabels].
  rewrite Hname. vm_compute. reflexivity.
Defined.

(** C8: the code at the failing input.  [host_disk] is the first metric
    observed with the dimension-name sequence ["host disk"], which is not
    the sequence ["host"; "disk"] of [hostDisk], but has the same key; so
    no descriptor is created for it: it finds the descriptor of [hostDisk]
    under its key, and [Collect] stops in the panic of
    [MustNewConstMetric], the cache holding that one descriptor. *)
Lemma descMap_not_keyed_by_sequence :
  let d := created 1 "App" "Latency" ["host"; "disk"]%string in
  let o := Collect (Rep := colliding) fresh.1 fresh.2 in
  dimensions (types.Dimensions hostDisk) = Some (["host"; "disk"], ["h1"; "sda"])%string
  /\ dimensions (types.Dimensions host_disk) = Some (["host disk"], ["h1 sda"])%string
  /\ descKey ["host disk"%string] = descKey ["host"; "disk"]%string
  /\ (exists w', o = Panicked (PanicError (errInconsistentCardinality 2 1)) w')
  /\ descMap (final o) = {[ "host disk"%string := d ]}
  /\ nextAddr (final o) = 2%nat
  /\ sent (final o) = [prometheus.constMetric d 1.5%float ["h1"; "sda"]%string].
Proof.
  cbv zeta. split; [reflexivity|]. split; [reflexivity|]. split; [reflexivity|].
  split; [eexists; vm_compute; reflexivity|].
  split; [vm_compute; reflexivity|]. split; vm_compute; reflexivity.
Qed.

Lemma descMap_keyed_by_joined_names_witness :
  let d := created 1 "AWS/EC2" "NetworkIn" ["InstanceId"%string] in
  let w1 := emit (cache fresh.2 "InstanceId" d)
                 (prometheus.constMetric d 1.5%float ["i-0"%string]) in
  (reads (ec2 "NetworkIn" 0) "AWS/EC2" "NetworkIn" ["InstanceId"%string] ["i-0"%string]
   /\ descMap fresh.2 !! descKey ["InstanceId"%string] = None
   /\ accepts d ["i-0"%string] = true)
  /\ collectMetric fresh.1 (ec2 "NetworkIn" 0) 1.5%float fresh.2 = Done tt w1
  /\ (reads (ec2 "NetworkOut" 1) "AWS/EC2" "NetworkOut" ["InstanceId"%string] ["i-1"%string]
      /\ descMap w1 !! descKey ["InstanceId"%string] = Some d
      /\ accepts d ["i-1"%string] = true)
  /\ collectMetric fresh.1 (ec2 "NetworkOut" 1) 1.5%float w1
     = Done tt (emit w1 (prometheus.constMetric d 1.5%float ["i-1"%string]))
  /\ descMap (final (Collect (Rep := two_names) fresh.1 w1)) !! "InstanceId"%string = Some d.
Proof.
  intros d w1.
  pose proof (descMap_keyed_by_joined_names (Rep := two_names) fresh.1)
    as (Hmiss & Hhit & Hkeep).
  assert (reads (ec2 "NetworkIn" 0) "AWS/EC2" "NetworkIn"
                ["InstanceId"%string] ["i-0"%string]) as Hin by (repeat split).
  assert (reads (ec2 "NetworkOut" 1) "AWS/EC2" "NetworkOut"
                ["InstanceId"%string] ["i-1"%string]) as Hout by (repeat split).
  split; [split; [exact Hin|split; reflexivity]|]. split.
  { exact (proj2 (Hmiss _ 1.5%float fresh.2 _ _ _ _ Hin eq_refl) eq_refl). }
  split; [split; [exact Hout|split; reflexivity]|]. split.
  { exact (proj2 (proj2 (Hhit _ 1.5%float w1 _ _ _ _ d Hout eq_refl)) eq_refl). }
  exact (proj1 (Hkeep w1 "InstanceId"%string d eq_refl)).
Defined.

(** C10: the loop over the results never looks at the first byte of an id,
    and a result set of the right size passes, each result sending one
    sample, as soon as the rest of each id leads to a (plain) metric of the
    batch: that the ids are those of distinct positions is not checked.  So
    for the batch [four], the results [misaddressed_results] break the
    contract, yet [collectBatch] returns without a panic, having sent two
    samples for the metric at position 3 and none for the one at
    position 0. *)
Theorem result_ids_unchecked :
  (forall (R : Type) (Val : prometheus.Validation) (Str : strcase.Lib)
          (c : collector) batch a b suffix vals (w : @World R),
      collectBatch_body c batch
        {| types.Id := Some (String a suffix); types.Values := vals |} w
      = collectBatch_body c batch
          {| types.Id := Some (String b suffix); types.Values := vals |} w)
  /\ (forall (R : Type) (Rep : Reporter R) (Val : prometheus.Validation)
             (Str : strcase.Lib) (c : collector) batch (w : @World R) r' results,
        batch <> [] -> GetMetricsResults (rep w) batch = (r', inr results) ->
        length results = length batch ->
        Forall (fun r => exists i m, position batch r = Some i /\ batch !! i = Some m
                                     /\ plain m = true /\ types.Values r <> []) results ->
        plain_cache w ->
        exists w' samples,
          collectBatch c batch w = Done tt w'
          /\ sent w' = sent w ++ samples
          /\ length samples = length batch
          /\ forallb isSample samples = true)
  /\ (let d := created 1 "AWS/EC2" "NetworkIn" ["InstanceId"%string] in
      ~ answers four misaddressed_results
      /\ map (position four) misaddressed_results = [Some 3; Some 3; Some 1; Some 2]%nat
      /\ exists w', collectBatch (Rep := misaddressed) fresh.1 four fresh.2 = Done tt w'
           /\ sent w' = [prometheus.constMetric d 1.5%float ["i-3"%string];
                         prometheus.constMetric d 1.5%float ["i-3"%string];
                         prometheus.constMetric d 1.5%float ["i-1"%string];
                         prometheus.constMetric d 1.5%float ["i-2"%string]]).
Proof.
  split; [|split].
  - intros. reflexivity.
  - intros R Rep Val Str c batch w r' results Hne Hget Hlen Hserves Hcache.
    destruct (collectBatch_served c batch w r' results Hne Hget Hlen Hserves Hcache)
      as (w' & Hrun & _ & _ & samples & Hsent & Hn & His).
    now exists w', samples.
  - cbv zeta. split; [|split; [reflexivity|]].
    + intros Hperm.
      assert (In (Some "x3"%string)
                 (map (fun i => Some (queryId i)) (seq 0 (length four)))) as Hin.
      { eapply Permutation_in; [exact Hperm|]. now left. }
      vm_compute in Hin. intuition discriminate.
    + eexists. split; vm_compute; reflexivity.
Qed.

Lemma result_ids_unchecked_witness :
  four <> []
  /\ GetMetricsResults (Reporter := misaddressed) (rep fresh.2) four
     = (1%nat, inr misaddressed_results)
  /\ length misaddressed_results = length four
  /\ Forall (fun r => exists i m, position four r = Some i /\ four !! i = Some m
                                  /\ plain m = true /\ types.Values r <> [])
            misaddressed_results
  /\ plain_cache fresh.2
  /\ exists w' samples,
       collectBatch (Rep := misaddressed) fresh.1 four fresh.2 = Done tt w'
       /\ sent w' = sent fresh.2 ++ samples
       /\ length samples = length four
       /\ forallb isSample samples = true.
Proof.
  assert (four <> []) as Hne by discriminate.
  assert (Forall (fun r => exists i m, position four r = Some i /\ four !! i = Some m
                                       /\ plain m = true /\ types.Values r <> [])
                 misaddressed_results) as Hserves.
  { repeat constructor.
    - exists 3%nat, (ec2 "NetworkIn" 3). repeat split; try reflexivity. discriminate.
    - exists 3%nat, (ec2 "NetworkIn" 3). repeat split; try reflexivity. discriminate.
    - exists 1%nat, (ec2 "NetworkIn" 1). repeat split; try reflexivity. discriminate.
    - exists 2%nat, (ec2 "NetworkIn" 2). repeat split; try reflexivity. discriminate. }
  split; [exact Hne|]. split; [reflexivity|]. split; [reflexivity|].
  split; [exact Hserves|]. split; [apply newCollector_plain|].
  exact (proj1 (proj2 result_ids_unchecked) nat misaddressed _ _ fresh.1 four fresh.2
               1%nat misaddressed_results Hne eq_refl eq_refl Hserves
               (newCollector_plain 0%nat "AWS/EC2" "NetworkIn")).
Defined.

Lemma collectMetric_failures_witness :
  let w1 := looked_up fresh.2 "App" "Latency" ["host"; "disk"]%string in
  let d := descriptor w1 "App" "Errors" ["host disk"%string] in
  collectMetric fresh.1 nameless 1.5%float fresh.2 = Panicked NilDereference fresh.2
  /\ reads host_disk "App" "Errors" ["host disk"%string] ["h1 sda"%string]
  /\ prometheus.err d = None
  /\ length ["h1 sda"%string] <> length (prometheus.variableLabels d)
  /\ collectMetric fresh.1 host_disk 1.5%float w1
     = Panicked (PanicError (errInconsistentCardinality 2 1)) w1.
Proof.
  intros w1 d.
  assert (reads host_disk "App" "Errors" ["host disk"%string] ["h1 sda"%string])
    as Hreads by (repeat split).
  assert (prometheus.err d = None) as Herr by reflexivity.
  assert (length ["h1 sda"%string] <> length (prometheus.variableLabels d)) as Hlen
    by (vm_compute; lia).
  split.
  { apply (proj1 (collectMetric_failures fresh.1 nameless 1.5%float fresh.2)).
    now left. }
  split; [exact Hreads|]. split; [exact Herr|]. split; [exact Hlen|].
  destruct (proj2 (collectMetric_failures fresh.1 host_disk 1.5%float w1)
              "App" "Errors" ["host disk"] ["h1 sda"] Hreads)%string
    as (_ & _ & _ & Hcard & _).
  exact (Hcard Herr Hlen).
Defined.

Lemma ReplaceAllString_fixed_point_witness :
  every inClass "NetworkIn" = true
  /\ regexp.ReplaceAllString prometheusMetricNameRegexp "NetworkIn" "_" = "NetworkIn"%string
  /\ regexp.ReplaceAllString prometheusMetricNameRegexp "AWS_EC2" "_" = "AWS_EC2"%string.
Proof.
  split; [reflexivity|]. split.
  - exact (proj2 (proj2 (ReplaceAllString_fixed_point "NetworkIn")) eq_refl).
  - exact (proj1 (ReplaceAllString_fixed_point "AWS/EC2")).
Defined.

Lemma Collect_fetches_witness :
  let bs := batches batchSize metrics567 in
  ListMetrics (Reporter := healthy) (rep fresh.2) (namespace fresh.1) (metricName fresh.1)
    = (0%nat, inr metrics567)
  /\ Collect (Rep := healthy) fresh.1 fresh.2
     = range bs (collectBatch (Rep := healthy) fresh.1) (listed fresh.2 0%nat)
  /\ concat bs = metrics567
  /\ Forall (fun b => (0 < length b <= batchSize)%nat) bs
  /\ exists k,
       calls (final (Collect (Rep := healthy) fresh.1 fresh.2)) = calls fresh.2 ++ take k bs
       /\ (metrics567 <> [] -> 0 < k)%nat.
Proof.
  intros bs. split; [reflexivity|].
  destruct (Collect_fetches (Rep := healthy) fresh.1 fresh.2 0%nat metrics567 eq_refl)
    as (Hrun & Hconcat & Hsizes & _ & _ & k & Hcalls & Hfirst & _).
  split; [exact Hrun|]. split; [exact Hconcat|]. split; [exact Hsizes|].
  exists k. split; [exact Hcalls|exact Hfirst].
Defined.

Lemma Collect_sends_witness :
  ListMetrics (Reporter := flaky) (rep fresh.2) (namespace fresh.1) (metricName fresh.1)
    = (0%nat, inr metrics567)
  /\ exists new k,
       sent (final (Collect (Rep := flaky) fresh.1 fresh.2)) = sent fresh.2 ++ new
       /\ Forall (reported fresh.1) new
       /\ calls (final (Collect (Rep := flaky) fresh.1 fresh.2))
          = calls fresh.2 ++ take k (batches batchSize metrics567)
       /\ (length (invalids new) <= k)%nat
       /\ (length new <= length metrics567)%nat.
Proof.
  split; [reflexivity|].
  destruct (Collect_sends (Rep := flaky) fresh.1 fresh.2) as (new & Hsent & Hrep & Hcount).
  destruct (Hcount 0%nat metrics567 eq_refl) as (k & Hcalls & Hinv & _ & Hlen).
  exists new, k. split; [exact Hsent|]. split; [exact Hrep|].
  split; [exact Hcalls|]. split; [exact Hinv|exact Hlen].
Defined.

Lemma Collect_panics_in_results_witness :
  Collect (Rep := short) fresh.1 fresh.2
  = Panicked (PanicString "not same length: 3 != 4")
             (fetched (listed fresh.2 0%nat) 1%nat four)
  /\ exists before batch after w1 (r1 : nat) results,
       batches batchSize four = before ++ batch :: after
       /\ range before (collectBatch (Rep := short) fresh.1) (listed fresh.2 0%nat)
          = Done tt w1
       /\ GetMetricsResults (Reporter := short) (rep w1) batch = (r1, inr results)
       /\ collectBatch (Rep := short) fresh.1 batch w1
          = Panicked (PanicString "not same length: 3 != 4")
                     (fetched (listed fresh.2 0%nat) 1%nat four).
Proof.
  assert (Collect (Rep := short) fresh.1 fresh.2
          = Panicked (PanicString "not same length: 3 != 4")
                     (fetched (listed fresh.2 0%nat) 1%nat four)) as Hrun
    by (vm_compute; reflexivity).
  split; [exact Hrun|].
  destruct (Collect_panics_in_results (Rep := short) fresh.1 fresh.2 _ _ Hrun)
    as (r0 & metrics & before & batch & after & w1 & r1 & results
        & Hlist & Hsplit & Hbefore & Hget & Hbatch & _).
  injection Hlist as <- <-.
  exists before, batch, after, w1, r1, results.
  split; [exact Hsplit|]. split; [exact Hbefore|]. split; [exact Hget|exact Hbatch].
Defined.

Lemma collectBatch_in_result_order_witness :
  four <> []
  /\ GetMetricsResults (Reporter := misaddressed) (rep fresh.2) four
     = (1%nat, inr misaddressed_results)
  /\ length misaddressed_results = length four
  /\ omap (sample_of four) misaddressed_results
     = [(1.5%float, ["i-3"%string]); (1.5%float, ["i-3"%string]);
        (1.5%float, ["i-1"%string]); (1.5%float, ["i-2"%string])]
  /\ exists k new,
       (k <= length misaddressed_results)%nat
       /\ sent (final (collectBatch (Rep := misaddressed) fresh.1 four fresh.2))
          = sent fresh.2 ++ new
       /\ map summary new
          = map Some (omap (sample_of four) (take k misaddressed_results)).
Proof.
  assert (four <> []) as Hne by discriminate.
  split; [exact Hne|]. split; [reflexivity|]. split; [reflexivity|].
  split; [vm_compute; reflexivity|].
  destruct (collectBatch_in_result_order (Rep := misaddressed) fresh.1 four fresh.2
              1%nat misaddressed_results Hne eq_refl eq_refl)
    as (k & new & Hk & Hsent & Hsum & _).
  exists k, new. split; [exact Hk|]. split; [exact Hsent|exact Hsum].
Defined.

Lemma scrapes_tidy_witness :
  let w := scrapes (Rep := two_names) fresh.1 2 fresh.2 in
  let d := created 1 "AWS/EC2" "NetworkIn" ["InstanceId"%string] in
  descMap w !! "InstanceId"%string = Some d
  /\ size (descMap w) = pred (nextAddr w)
  /\ (0 < prometheus.addr d < nextAddr w)%nat
  /\ d <> errDesc fresh.1.
Proof.
  intros w d.
  assert (descMap w !! "InstanceId"%string = Some d) as Hd by (vm_compute; reflexivity).
  destruct (scrapes_tidy (Rep := two_names) 0%nat "AWS/EC2" "NetworkIn" 2)
    as (_ & Hsize & Haddr & _).
  split; [exact Hd|]. split; [exact Hsize|].
  exact (Haddr "InstanceId"%string d Hd).
Defined.

Lemma Describe_dummy_witness :
  sound_cache fresh.2
  /\ exists new,
       sent (final (Collect (Rep := two_names) fresh.1 fresh.2)) = sent fresh.2 ++ new
       /\ forall d v lvs, prometheus.constMetric d v lvs ∈ new ->
            prometheus.fqName d <> "dummy"%string.
Proof.
  split; [apply newCollector_sound|].
  exact (proj2 (Describe_dummy (Rep := two_names) fresh.1 fresh.2) fresh.2
               (newCollector_sound 0%nat "AWS/EC2" "NetworkIn")).
Defined.

Lemma down_fails (r : nat) (batch : list types.Metric) :
  exists r' e, GetMetricsResults (Reporter := down) r batch = (r', inl e).
Proof. now exists (S r), throttled. Qed.

Lemma Collect_every_fetch_fails_witness :
  ListMetrics (Reporter := down) (rep fresh.2) (namespace fresh.1) (metricName fresh.1)
    = (0%nat, inr metrics567)
  /\ (forall (r : nat) batch, batch <> [] -> (length batch <= batchSize)%nat ->
        exists r' e, GetMetricsResults (Reporter := down) r batch = (r', inl e))
  /\ exists w' errors,
       Collect (Rep := down) fresh.1 fresh.2 = Done tt w'
       /\ descMap w' = descMap fresh.2 /\ nextAddr w' = nextAddr fresh.2
       /\ calls w' = calls fresh.2 ++ batches batchSize metrics567
       /\ sent w' = sent fresh.2 ++ errors
       /\ length errors = length (batches batchSize metrics567)
       /\ Forall (fun s => exists e, s = prometheus.invalidMetric (errDesc fresh.1) e) errors.
Proof.
  split; [reflexivity|]. split; [intros r batch _ _; apply down_fails|].
  apply (Collect_every_fetch_fails (Rep := down) fresh.1 fresh.2 0%nat metrics567 eq_refl).
  intros r batch _ _. apply down_fails.
Defined.

(** Against C1 as stated.  Of the 567 metrics listed, [flaky] fails the
    request for the first 500; every result it returns has a value, yet
    [Collect] sends 67 samples, not 567.  And [spaced] lists one metric and
    answers by the contract with values, but a dimension name of the
    metric has a space, which [NewDesc] refuses: [Collect] stops in the
    panic of [MustNewConstMetric] after its one request, and has sent no
    sample. *)
Lemma Collect_not_all_samples :
  (let o := Collect (Rep := flaky) fresh.1 fresh.2 in
   ListMetrics (Reporter := flaky) (rep fresh.2) (namespace fresh.1) (metricName fresh.1)
     = (0%nat, inr metrics567)
   /\ length metrics567 = 567%nat
   /\ (exists w', o = Done tt w')
   /\ length (List.filter isSample (sent (final o))) = 67%nat)
  /\ (let o := Collect (Rep := spaced) fresh.1 fresh.2 in
      ListMetrics (Reporter := spaced) (rep fresh.2) (namespace fresh.1) (metricName fresh.1)
        = (0%nat, inr [clusterBroker])
      /\ GetMetricsResults (Reporter := spaced) 0%nat [clusterBroker]
         = (1%nat, inr [result "n0" [2.5%float; 1.5%float]])
      /\ (exists e w', o = Panicked (PanicError e) w')
      /\ sent (final o) = []
      /\ calls (final o) = [[clusterBroker]]).
Proof.
  cbv zeta. split.
  - split; [reflexivity|]. split; [reflexivity|].
    split; [eexists; vm_compute; reflexivity|]. vm_compute. reflexivity.
  - split; [reflexivity|]. split; [reflexivity|].
    split; [do 2 eexists; vm_compute; reflexivity|].
    split; vm_compute; reflexivity.
Qed.

(** Against C4 as stated: two results with values that contribute no
    sample.  The id of the first leads nowhere in the batch [four], and
    the loop stops in the panic of the index expression.  The second is
    the one result [spaced] returns for the batch of its one metric; its id
    leads to that metric, whose descriptor [NewDesc] refuses for the space
    in a label name, and the loop stops in the panic of
    [MustNewConstMetric]. *)
Lemma result_with_value_no_sample :
  (let r := result "n7" [2.5%float] in
   let o := collectBatch_body fresh.1 four r fresh.2 in
   types.Values r = [2.5%float]
   /\ o = Panicked (IndexOutOfRange 7 4) fresh.2
   /\ sent (final o) = [])
  /\ (let r := result "n0" [2.5%float; 1.5%float] in
      let o := collectBatch_body fresh.1 [clusterBroker] r fresh.2 in
      GetMetricsResults (Reporter := spaced) (rep fresh.2) [clusterBroker] = (1%nat, inr [r])
      /\ position [clusterBroker] r = Some 0%nat
      /\ (exists e w', o = Panicked (PanicError e) w')
      /\ sent (final o) = []).
Proof.
  cbv zeta. split.
  - split; [reflexivity|]. split; vm_compute; reflexivity.
  - split; [reflexivity|]. split; [reflexivity|].
    split; [do 2 eexists; vm_compute; reflexivity|]. vm_compute. reflexivity.
Qed.

End examples.
